(** * A bounded channel over pthread mutexes and condition variables

    Shallow embedding of [channel.c]: the channel operations are written in a
    small state-and-error monad over a heap that holds the [channel_t] structs
    and the buffers they point to.  A blocking call that reaches
    [pthread_cond_wait] hands the heap to the other threads, which are given
    as a list of heap transformers, one per wake-up. *)

From Stdlib Require Import ZArith List Lia.
From stdpp Require Import list gmap.

Import ListNotations.

(** ** Data model *)

(** Addresses of heap blocks ([channel_t*], [buffer_t*]). *)
Definition ptr := nat.

(** The payload is an opaque [void*]; the channel never looks inside. *)
Definition void_ptr := Z.

(** Modelled from the spec: [enum channel_status] is declared in channel.h,
    which is not among the sources; the six status codes are the ones the
    public surface lists. *)
Inductive channel_status :=
| SUCCESS
| CLOSED_ERROR
| GENERIC_ERROR
| CHANNEL_FULL
| CHANNEL_EMPTY
| DESTROY_ERROR.

(** Modelled from the spec: [buffer_t] and its functions live in buffer.c,
    which is not among the sources.  The spec describes a FIFO store of
    opaque items whose capacity is fixed when it is made. *)
Record buffer_t := mkBuffer {
  buf_capacity : nat;
  buf_items : list void_ptr    (* oldest item first *)
}.

(** State of a [pthread_mutex_t]. *)
Inductive pthread_mutex_t :=
| MUTEX_UNLOCKED
| MUTEX_LOCKED
| MUTEX_DESTROYED.

(** A [pthread_cond_t] records the wake-ups posted to it. *)
Inductive wakeup := WAKE_ONE | WAKE_ALL.

Inductive pthread_cond_t :=
| COND (posted : list wakeup)
| COND_DESTROYED.

(** Modelled from the spec: [channel_t] is declared in channel.h, which is not
    among the sources; the fields are the ones channel.c reads and writes. *)
Record channel_t := mkChannel {
  buffer : ptr;
  lock : pthread_mutex_t;
  not_full : pthread_cond_t;
  not_empty : pthread_cond_t;
  closed : bool
}.

(** Modelled from the spec: [select_t] and [enum direction] are declared in
    channel.h; a request names a channel, a direction and a payload slot. *)
Inductive direction := SEND | RECV.

Record select_t := mkSelect {
  sel_channel : ptr;
  sel_dir : direction;
  sel_data : void_ptr
}.

(** The heap: the allocated channel structs and the allocated buffers, and
    what the pthread library holds: the number of mutexes and of condition
    variables that have been initialised and not yet destroyed. *)
Record heap := mkHeap {
  channels : gmap ptr channel_t;
  buffers : gmap ptr buffer_t;
  mutexes : Z;
  conds : Z
}.

(** What the other threads do to the heap while this one sleeps inside
    [pthread_cond_wait]. *)
Definition interference := heap -> heap.

(** ** The monad *)

Inductive outcome (A : Type) :=
| Done (a : A) (h : heap)     (* the call returned [a] *)
| Blocked (h : heap)          (* the thread sleeps and nobody wakes it *)
| Fault.                      (* undefined behaviour *)
Arguments Done {A} a h.
Arguments Blocked {A} h.
Arguments Fault {A}.

Definition M (A : Type) : Type := heap -> outcome A.

Definition ret {A} (a : A) : M A := fun h => Done a h.

Definition bind {A B} (m : M A) (k : A -> M B) : M B :=
  fun h =>
    match m h with
    | Done a h' => k a h'
    | Blocked h' => Blocked h'
    | Fault => Fault
    end.

Definition fault {A} : M A := fun _ => Fault.
Definition block {A} : M A := fun h => Blocked h.

Declare Scope chan_scope.
Delimit Scope chan_scope with chan.
Notation "'let*' x ':=' m 'in' k" := (bind m (fun x => k))
  (at level 10, x name, m at level 100, k at level 200) : chan_scope.
Notation "m ';;;' k" := (bind m (fun _ => k))
  (at level 100, k at level 200, right associativity) : chan_scope.
Open Scope chan_scope.

(** ** Memory accesses *)

Definition set_lock (c : channel_t) (m : pthread_mutex_t) : channel_t :=
  mkChannel (buffer c) m (not_full c) (not_empty c) (closed c).

Definition set_not_full (c : channel_t) (v : pthread_cond_t) : channel_t :=
  mkChannel (buffer c) (lock c) v (not_empty c) (closed c).

Definition set_not_empty (c : channel_t) (v : pthread_cond_t) : channel_t :=
  mkChannel (buffer c) (lock c) (not_full c) v (closed c).

Definition set_closed (c : channel_t) (b : bool) : channel_t :=
  mkChannel (buffer c) (lock c) (not_full c) (not_empty c) b.

Definition put_channel (p : ptr) (c : channel_t) (h : heap) : heap :=
  mkHeap (<[p := c]> (channels h)) (buffers h) (mutexes h) (conds h).

Definition put_buffer (q : ptr) (v : buffer_t) (h : heap) : heap :=
  mkHeap (channels h) (<[q := v]> (buffers h)) (mutexes h) (conds h).

(** [channel->f] *)
Definition load {A} (channel : ptr) (f : channel_t -> A) : M A :=
  fun h =>
    match channels h !! channel with
    | Some c => Done (f c) h
    | None => Fault
    end.

(** [channel->f = v], given as the update [upd] of the struct *)
Definition store (channel : ptr) (upd : channel_t -> channel_t) : M unit :=
  fun h =>
    match channels h !! channel with
    | Some c => Done tt (put_channel channel (upd c) h)
    | None => Fault
    end.

Definition load_buffer (b : ptr) : M buffer_t :=
  fun h =>
    match buffers h !! b with
    | Some v => Done v h
    | None => Fault
    end.

Definition store_buffer (b : ptr) (v : buffer_t) : M unit :=
  fun h =>
    match buffers h !! b with
    | Some _ => Done tt (put_buffer b v h)
    | None => Fault
    end.

(** [free(channel)] *)
Definition free (channel : ptr) : M unit :=
  fun h =>
    match channels h !! channel with
    | Some _ =>
        Done tt (mkHeap (delete channel (channels h)) (buffers h)
                   (mutexes h) (conds h))
    | None => Fault
    end.

(** ** The pthread primitives

    A mutex or condition variable is addressed through the channel that holds
    it: [pthread_mutex_lock channel] stands for
    [pthread_mutex_lock(&channel->lock)]. *)

Inductive cond_var := NOT_FULL | NOT_EMPTY.

Definition cond_of (cv : cond_var) : channel_t -> pthread_cond_t :=
  match cv with NOT_FULL => not_full | NOT_EMPTY => not_empty end.

Definition set_cond (cv : cond_var) (v : pthread_cond_t) (c : channel_t) : channel_t :=
  match cv with NOT_FULL => set_not_full c v | NOT_EMPTY => set_not_empty c v end.

(** Taking a mutex that another thread holds suspends the caller. *)
Definition pthread_mutex_lock (channel : ptr) : M unit :=
  let* m := load channel lock in
  match m with
  | MUTEX_UNLOCKED => store channel (fun c => set_lock c MUTEX_LOCKED)
  | MUTEX_LOCKED => block
  | MUTEX_DESTROYED => fault
  end.

Definition pthread_mutex_unlock (channel : ptr) : M unit :=
  let* m := load channel lock in
  match m with
  | MUTEX_LOCKED => store channel (fun c => set_lock c MUTEX_UNLOCKED)
  | _ => fault
  end.

(** The pthread library takes note of a mutex or a condition variable that
    is initialised ([n = 1]) or destroyed ([n = -1]). *)
Definition count_mutex (n : Z) : M unit :=
  fun h => Done tt (mkHeap (channels h) (buffers h) (mutexes h + n) (conds h)).

Definition count_cond (n : Z) : M unit :=
  fun h => Done tt (mkHeap (channels h) (buffers h) (mutexes h) (conds h + n)).

(** Destroying a mutex that is held, or one that has been destroyed, is
    undefined. *)
Definition pthread_mutex_destroy (channel : ptr) : M unit :=
  let* m := load channel lock in
  match m with
  | MUTEX_UNLOCKED =>
      store channel (fun c => set_lock c MUTEX_DESTROYED) ;;;
      count_mutex (-1)
  | _ => fault
  end.

Definition post (w : wakeup) (channel : ptr) (cv : cond_var) : M unit :=
  let* v := load channel (cond_of cv) in
  match v with
  | COND posted => store channel (set_cond cv (COND (posted ++ [w])))
  | COND_DESTROYED => fault
  end.

Definition pthread_cond_signal : ptr -> cond_var -> M unit := post WAKE_ONE.
Definition pthread_cond_broadcast : ptr -> cond_var -> M unit := post WAKE_ALL.

(** Destroying a condition variable that has been destroyed is undefined. *)
Definition pthread_cond_destroy (channel : ptr) (cv : cond_var) : M unit :=
  let* v := load channel (cond_of cv) in
  match v with
  | COND _ =>
      store channel (set_cond cv COND_DESTROYED) ;;;
      count_cond (-1)
  | COND_DESTROYED => fault
  end.

(** [pthread_cond_wait(&channel->cv, &channel->lock)]: the mutex is released
    and the thread sleeps.  [wake] is what the other threads do before they
    wake it, [None] when they never do; once woken the thread takes the mutex
    again. *)
Definition pthread_cond_wait (wake : option interference)
    (channel : ptr) (cv : cond_var) : M unit :=
  let* v := load channel (cond_of cv) in
  match v with
  | COND_DESTROYED => fault
  | COND _ =>
      pthread_mutex_unlock channel ;;;
      match wake with
      | None => block
      | Some f => (fun h => Done tt (f h)) ;;; pthread_mutex_lock channel
      end
  end.

(** ** The buffer *)

(** Modelled from the spec: the functions of buffer.c, which is not among the
    sources.  [buffer_add] requires [current_size < capacity] and
    [buffer_remove] requires [current_size > 0] and takes the oldest item;
    outside these preconditions the call is a fault. *)
Definition buffer_current_size (b : ptr) : M nat :=
  let* v := load_buffer b in ret (length (buf_items v)).

Definition buffer_capacity (b : ptr) : M nat :=
  let* v := load_buffer b in ret (buf_capacity v).

Definition buffer_add (b : ptr) (data : void_ptr) : M unit :=
  let* v := load_buffer b in
  if length (buf_items v) <? buf_capacity v
  then store_buffer b (mkBuffer (buf_capacity v) (buf_items v ++ [data]))
  else fault.

Definition buffer_remove (b : ptr) : M void_ptr :=
  let* v := load_buffer b in
  match buf_items v with
  | [] => fault
  | x :: rest => store_buffer b (mkBuffer (buf_capacity v) rest) ;;; ret x
  end.

Definition buffer_free (b : ptr) : M unit :=
  fun h =>
    match buffers h !! b with
    | Some _ =>
        Done tt (mkHeap (channels h) (delete b (buffers h))
                   (mutexes h) (conds h))
    | None => Fault
    end.

(** ** channel.c *)

(** The [while] loop of [channel_send].  It yields [Some status] when the
    function returns from inside the loop and [None] when the loop is left;
    every turn that waits consumes one wake-up of [env]. *)
Fixpoint channel_send_wait (env : list interference) (channel : ptr)
    : M (option channel_status) :=
  let* b := load channel buffer in
  let* size := buffer_current_size b in
  let* cap := buffer_capacity b in
  if size =? cap then
    let* c := load channel closed in
    if c then
      pthread_mutex_unlock channel ;;;
      ret (Some CLOSED_ERROR)
    else
      match env with
      | [] => pthread_cond_wait None channel NOT_FULL ;;; block
      | f :: env' =>
          pthread_cond_wait (Some f) channel NOT_FULL ;;;
          channel_send_wait env' channel
      end
  else ret None.

Definition channel_send (env : list interference) (channel : ptr)
    (data : void_ptr) : M channel_status :=
  pthread_mutex_lock channel ;;;
  let* early := channel_send_wait env channel in
  match early with
  | Some status => ret status
  | None =>
      let* b := load channel buffer in
      buffer_add b data ;;;
      pthread_cond_signal channel NOT_EMPTY ;;;
      pthread_mutex_unlock channel ;;;
      ret SUCCESS
  end.

(** The [while] loop of [channel_receive]. *)
Fixpoint channel_receive_wait (env : list interference) (channel : ptr)
    : M (option channel_status) :=
  let* b := load channel buffer in
  let* size := buffer_current_size b in
  if size =? 0 then
    let* c := load channel closed in
    if c then
      pthread_mutex_unlock channel ;;;
      ret (Some CLOSED_ERROR)
    else
      match env with
      | [] => pthread_cond_wait None channel NOT_EMPTY ;;; block
      | f :: env' =>
          pthread_cond_wait (Some f) channel NOT_EMPTY ;;;
          channel_receive_wait env' channel
      end
  else ret None.

(** [data] is the content of the caller's slot [*data] at the call; the
    result carries its content at the return. *)
Definition channel_receive (env : list interference) (channel : ptr)
    (data : void_ptr) : M (channel_status * void_ptr) :=
  pthread_mutex_lock channel ;;;
  let* early := channel_receive_wait env channel in
  match early with
  | Some status => ret (status, data)
  | None =>
      let* b := load channel buffer in
      let* x := buffer_remove b in
      pthread_cond_signal channel NOT_FULL ;;;
      pthread_mutex_unlock channel ;;;
      ret (SUCCESS, x)
  end.

Definition channel_non_blocking_send (channel : ptr) (data : void_ptr)
    : M channel_status :=
  pthread_mutex_lock channel ;;;
  let* c := load channel closed in
  if c then
    pthread_mutex_unlock channel ;;;
    ret CLOSED_ERROR
  else
    let* b := load channel buffer in
    let* size := buffer_current_size b in
    let* cap := buffer_capacity b in
    if size =? cap then
      pthread_mutex_unlock channel ;;;
      ret CHANNEL_FULL
    else
      buffer_add b data ;;;
      pthread_cond_signal channel NOT_EMPTY ;;;
      pthread_mutex_unlock channel ;;;
      ret SUCCESS.

Definition channel_non_blocking_receive (channel : ptr) (data : void_ptr)
    : M (channel_status * void_ptr) :=
  pthread_mutex_lock channel ;;;
  let* c := load channel closed in
  if c then
    pthread_mutex_unlock channel ;;;
    ret (CLOSED_ERROR, data)
  else
    let* b := load channel buffer in
    let* size := buffer_current_size b in
    if size =? 0 then
      pthread_mutex_unlock channel ;;;
      ret (CHANNEL_EMPTY, data)
    else
      let* x := buffer_remove b in
      pthread_cond_signal channel NOT_FULL ;;;
      pthread_mutex_unlock channel ;;;
      ret (SUCCESS, x).

Definition channel_close (channel : ptr) : M channel_status :=
  pthread_mutex_lock channel ;;;
  let* c := load channel closed in
  if c then
    pthread_mutex_unlock channel ;;;
    ret CLOSED_ERROR
  else
    store channel (fun s => set_closed s true) ;;;
    pthread_cond_broadcast channel NOT_EMPTY ;;;
    pthread_cond_broadcast channel NOT_FULL ;;;
    pthread_mutex_unlock channel ;;;
    ret SUCCESS.

Definition channel_destroy (channel : ptr) : M channel_status :=
  let* c := load channel closed in
  if negb c then ret DESTROY_ERROR
  else
    let* b := load channel buffer in
    buffer_free b ;;;
    pthread_mutex_destroy channel ;;;
    pthread_cond_destroy channel NOT_FULL ;;;
    pthread_cond_destroy channel NOT_EMPTY ;;;
    free channel ;;;
    ret SUCCESS.

(** [channel_list] and [selected_index] are the contents of the caller's
    array and of [*selected_index] at the call; the result carries their
    contents at the return. *)
Definition channel_select (channel_list : list select_t) (channel_count : nat)
    (selected_index : nat) : M (channel_status * list select_t * nat) :=
  ret (SUCCESS, channel_list, selected_index).

(** ** Creation *)

Definition NULL : ptr := 0.

Definition set_buffer (c : channel_t) (b : ptr) : channel_t :=
  mkChannel b (lock c) (not_full c) (not_empty c) (closed c).

(** [malloc(sizeof(channel_t))].  [answer] is what the allocator answers:
    [None] for NULL, or the address of a block that is not in use; the new
    block holds whatever was there, [junk]. *)
Definition malloc (answer : option ptr) (junk : channel_t) : M (option ptr) :=
  fun h =>
    match answer with
    | None => Done None h
    | Some p =>
        match channels h !! p with
        | None => Done (Some p) (put_channel p junk h)
        | Some _ => Fault
        end
    end.

(** Modelled from the spec: [buffer_create] of buffer.c, which is not among
    the sources, yields a buffer of the given capacity with no items, or the
    allocation-failure signal.  [answer] is what its allocator answers. *)
Definition buffer_create (answer : option ptr) (size : nat) : M (option ptr) :=
  fun h =>
    match answer with
    | None => Done None h
    | Some q =>
        match buffers h !! q with
        | None => Done (Some q) (put_buffer q (mkBuffer size []) h)
        | Some _ => Fault
        end
    end.

Definition pthread_mutex_init (channel : ptr) : M unit :=
  store channel (fun c => set_lock c MUTEX_UNLOCKED) ;;;
  count_mutex 1.

Definition pthread_cond_init (channel : ptr) (cv : cond_var) : M unit :=
  store channel (set_cond cv (COND [])) ;;;
  count_cond 1.

(** [channel_mem] and [buffer_mem] are the answers of the two allocations;
    the result is the new channel, [None] for NULL. *)
Definition channel_create (channel_mem buffer_mem : option ptr)
    (junk : channel_t) (size : nat) : M (option ptr) :=
  let* allocated := malloc channel_mem junk in
  match allocated with
  | None => ret None
  | Some channel =>
      let* b := buffer_create buffer_mem size in
      store channel (fun c => set_buffer c (default NULL b)) ;;;
      match b with
      | None =>
          free channel ;;;
          ret None
      | Some _ =>
          pthread_mutex_init channel ;;;
          pthread_cond_init channel NOT_FULL ;;;
          pthread_cond_init channel NOT_EMPTY ;;;
          store channel (fun c => set_closed c false) ;;;
          ret (Some channel)
      end
  end.

(** ** Observations on a heap *)

(** The items buffered in the channel at [p], oldest first. *)
Definition contents (h : heap) (p : ptr) : option (list void_ptr) :=
  c ← channels h !! p;
  b ← buffers h !! buffer c;
  Some (buf_items b).

Definition closed_at (h : heap) (p : ptr) : option bool :=
  closed <$> channels h !! p.

Definition lock_at (h : heap) (p : ptr) : option pthread_mutex_t :=
  lock <$> channels h !! p.

Definition cond_live (v : pthread_cond_t) : bool :=
  match v with COND _ => true | COND_DESTROYED => false end.

(** A channel that can be entered: the struct [c] is allocated at [p] and
    points to the allocated buffer [b], no thread holds its mutex, its
    condition variables are initialised and the buffer holds no more than its
    capacity. *)
Record idle (h : heap) (p : ptr) (c : channel_t) (b : buffer_t) : Prop := mkIdle {
  idle_channel : channels h !! p = Some c;
  idle_buffer : buffers h !! buffer c = Some b;
  idle_lock : lock c = MUTEX_UNLOCKED;
  idle_not_full : cond_live (not_full c) = true;
  idle_not_empty : cond_live (not_empty c) = true;
  idle_size : length (buf_items b) <= buf_capacity b
}.

(** The condition variable after one more wake-up has been posted. *)
Definition posted_to (w : wakeup) (v : pthread_cond_t) : pthread_cond_t :=
  match v with COND l => COND (l ++ [w]) | COND_DESTROYED => COND_DESTROYED end.

(** The heap after a send that enqueued [data]. *)
Definition enqueued (p : ptr) (c : channel_t) (b : buffer_t) (data : void_ptr)
    (h : heap) : heap :=
  put_channel p (set_not_empty c (posted_to WAKE_ONE (not_empty c)))
    (put_buffer (buffer c) (mkBuffer (buf_capacity b) (buf_items b ++ [data])) h).

(** The heap after a receive that left [rest] in the buffer. *)
Definition dequeued (p : ptr) (c : channel_t) (b : buffer_t) (rest : list void_ptr)
    (h : heap) : heap :=
  put_channel p (set_not_full c (posted_to WAKE_ONE (not_full c)))
    (put_buffer (buffer c) (mkBuffer (buf_capacity b) rest) h).

(** ** Statement vocabulary *)

(** The struct after the first close: the flag is set and both condition
    variables have been broadcast. *)
Definition close_struct (c : channel_t) : channel_t :=
  mkChannel (buffer c) (lock c)
    (posted_to WAKE_ALL (not_full c)) (posted_to WAKE_ALL (not_empty c)) true.

(** Every return of [m] satisfies [P]. *)
Definition returns_only {A} (P : A -> Prop) (m : M A) : Prop :=
  forall h r h', m h = Done r h' -> P r.

(** What holds when a wait loop makes the function return: the channel was
    found closed with the buffer full (send) or empty (receive), in a heap
    [h1] where this thread held the mutex, and the mutex was then released.
    Without wake-ups, [h1] is the heap the loop was entered with. *)
Definition early_return (full : buffer_t -> Prop) (env : list interference)
    (p : ptr) (h : heap) (s : channel_status) (h' : heap) : Prop :=
  s = CLOSED_ERROR /\
  exists h1 c b,
    channels h1 !! p = Some c /\ buffers h1 !! buffer c = Some b /\
    lock c = MUTEX_LOCKED /\ closed c = true /\ full b /\
    h' = put_channel p (set_lock c MUTEX_UNLOCKED) h1 /\
    (env = [] -> h1 = h).

(** The operations of the public surface that act on one channel. *)
Inductive operation :=
| Send (data : void_ptr)
| Receive (data : void_ptr)
| NonBlockingSend (data : void_ptr)
| NonBlockingReceive (data : void_ptr)
| Close
| Destroy.

Definition perform (op : operation) (env : list interference) (p : ptr)
    : M channel_status :=
  match op with
  | Send data => channel_send env p data
  | Receive data => let* r := channel_receive env p data in ret (fst r)
  | NonBlockingSend data => channel_non_blocking_send p data
  | NonBlockingReceive data =>
      let* r := channel_non_blocking_receive p data in ret (fst r)
  | Close => channel_close p
  | Destroy => channel_destroy p
  end.

(** One blocking send per item, in list order, with no other thread at work. *)
Fixpoint send_each (p : ptr) (items : list void_ptr) : M (list channel_status) :=
  match items with
  | [] => ret []
  | x :: rest =>
      let* s := channel_send [] p x in
      let* ss := send_each p rest in
      ret (s :: ss)
  end.

(** [n] blocking receives into one slot, with no other thread at work. *)
Fixpoint receive_times (n : nat) (p : ptr) (data : void_ptr)
    : M (list (channel_status * void_ptr)) :=
  match n with
  | 0 => ret []
  | S k =>
      let* r := channel_receive [] p data in
      let* rs := receive_times k p (snd r) in
      ret (r :: rs)
  end.

(** The heaps [h] and [h'] hold the same channel structs away from [p] and
    the same buffers away from [q]. *)
Definition untouched_elsewhere (p q : ptr) (h h' : heap) : Prop :=
  (forall r, r <> p -> channels h' !! r = channels h !! r) /\
  (forall r, r <> q -> buffers h' !! r = buffers h !! r).

(** Every return of [m] leaves a heap that satisfies [Q]. *)
Definition ends_with {A} (Q : heap -> Prop) (m : M A) : Prop :=
  forall h r h', m h = Done r h' -> Q h'.

(** The heap after a channel of capacity [size] has been created at [p]
    with its buffer at [q]. *)
Definition created (p q : ptr) (size : nat) (h : heap) : heap :=
  mkHeap
    (<[p := mkChannel q MUTEX_UNLOCKED (COND []) (COND []) false]> (channels h))
    (<[q := mkBuffer size []]> (buffers h))
    (mutexes h + 1) (conds h + 1 + 1).

(** The heap after the channel at [p], whose struct is [c], has been
    destroyed: the struct and the buffer are freed, and one mutex and two
    condition variables fewer are initialised. *)
Definition destroyed (p : ptr) (c : channel_t) (h : heap) : heap :=
  mkHeap (delete p (channels h)) (delete (buffer c) (buffers h))
    (mutexes h + -1) (conds h + -1 + -1).

(** The calls that can sleep. *)
Definition blocking (op : operation) : bool :=
  match op with
  | Send _ | Receive _ => true
  | _ => false
  end.

(** What a call on an idle channel can come to when no other thread is at
    work: a failure that leaves the heap alone, a sleep, or one of the four
    effects. *)
Inductive sequential_outcome (h : heap) (p : ptr) (c : channel_t) (b : buffer_t)
    : operation -> outcome channel_status -> Prop :=
| seq_failed (op : operation) (s : channel_status) :
    s <> SUCCESS -> sequential_outcome h p c b op (Done s h)
| seq_asleep (op : operation) :
    blocking op = true -> closed c = false ->
    sequential_outcome h p c b op (Blocked h)
| seq_enqueued (op : operation) (data : void_ptr) :
    op <> Destroy ->
    length (buf_items b) < buf_capacity b ->
    sequential_outcome h p c b op (Done SUCCESS (enqueued p c b data h))
| seq_dequeued (op : operation) (x : void_ptr) (rest : list void_ptr) :
    op <> Destroy ->
    buf_items b = x :: rest ->
    sequential_outcome h p c b op (Done SUCCESS (dequeued p c b rest h))
| seq_closed :
    closed c = false ->
    sequential_outcome h p c b Close
      (Done SUCCESS (put_channel p (close_struct c) h))
| seq_destroyed :
    closed c = true ->
    sequential_outcome h p c b Destroy
      (Done SUCCESS (destroyed p c h)).

(** A channel is created, the items are sent and received back, and the
    channel is closed and destroyed. *)
Definition whole_life (channel_mem buffer_mem : option ptr) (junk : channel_t)
    (size : nat) (items : list void_ptr) (data : void_ptr)
    : M (option (list channel_status * list (channel_status * void_ptr) *
                 channel_status * channel_status)) :=
  let* made := channel_create channel_mem buffer_mem junk size in
  match made with
  | None => ret None
  | Some channel =>
      let* sent := send_each channel items in
      let* received := receive_times (length items) channel data in
      let* shut := channel_close channel in
      let* gone := channel_destroy channel in
      ret (Some (sent, received, shut, gone))
  end.

(** The channel is closed, [n] items are received, and one more receive is
    tried. *)
Definition close_and_drain (p : ptr) (n : nat) (data : void_ptr)
    : M (channel_status * list (channel_status * void_ptr) *
         (channel_status * void_ptr)) :=
  let* shut := channel_close p in
  let* received := receive_times n p data in
  let* last := channel_receive [] p data in
  ret (shut, received, last).

(** The other threads' step [f] leaves the items buffered in the channel at
    [p] as they are. *)
Definition keeps_contents (p : ptr) (f : interference) : Prop :=
  forall h, contents (f h) p = contents h p.

(** What another thread does to the heap by a call that returns; a call
    that does not return leaves the heap as it was. *)
Definition other_thread {A} (m : M A) : interference :=
  fun h => match m h with Done _ h' => h' | _ => h end.

(** ** Sample heaps *)

Definition open_struct (b : ptr) : channel_t :=
  mkChannel b MUTEX_UNLOCKED (COND []) (COND []) false.

Definition shut_struct (b : ptr) : channel_t :=
  mkChannel b MUTEX_UNLOCKED (COND [WAKE_ALL]) (COND [WAKE_ALL]) true.

(** One channel at address 1 whose buffer, at address 10, has capacity 2. *)
Definition one_channel (c : channel_t) (items : list void_ptr) : heap :=
  mkHeap {[ 1 := c ]} {[ 10 := mkBuffer 2 items ]} 1 2.

(** Three channels at addresses 1, 2 and 3 with buffers of capacity 2: the
    first is empty, the other two hold one item each. *)
Definition three_channels : heap :=
  mkHeap
    {[ 1 := open_struct 10; 2 := open_struct 20; 3 := open_struct 30 ]}
    {[ 10 := mkBuffer 2 []; 20 := mkBuffer 2 [42%Z]; 30 := mkBuffer 2 [43%Z] ]}
    3 6.

Definition three_receives : list select_t :=
  [ mkSelect 1 RECV 0%Z; mkSelect 2 RECV 0%Z; mkSelect 3 RECV 0%Z ].

(** * Proofs *)

(** ** Heap updates *)

Lemma heap_eq (h1 h2 : heap) :
  channels h1 = channels h2 -> buffers h1 = buffers h2 ->
  mutexes h1 = mutexes h2 -> conds h1 = conds h2 -> h1 = h2.
Proof. destruct h1, h2; simpl; congruence. Qed.

Lemma put_channel_id p c h : channels h !! p = Some c -> put_channel p c h = h.
Proof.
  intros H. apply heap_eq; simpl; [ now apply insert_id | reflexivity.. ].
Qed.

Lemma put_channel_twice p c c' h :
  put_channel p c (put_channel p c' h) = put_channel p c h.
Proof. apply heap_eq; simpl; [ apply insert_insert_eq | reflexivity.. ]. Qed.

Lemma set_lock_twice c m m' : set_lock (set_lock c m) m' = set_lock c m'.
Proof. reflexivity. Qed.

Lemma set_lock_same c : set_lock c (lock c) = c.
Proof. now destruct c. Qed.

(** Locking and unlocking again gives the heap back. *)
Lemma relock_id p c h :
  channels h !! p = Some c -> lock c = MUTEX_UNLOCKED ->
  put_channel p (set_lock (set_lock c MUTEX_LOCKED) MUTEX_UNLOCKED)
    (put_channel p (set_lock c MUTEX_LOCKED) h) = h.
Proof.
  intros Hc Hl. rewrite put_channel_twice, set_lock_twice, <- Hl, set_lock_same.
  now apply put_channel_id.
Qed.

(** ** Running the primitives *)

Ltac heap_lookup :=
  match goal with
  | |- context [ <[?p := _]> _ !! ?p ] => rewrite lookup_insert_eq
  | H : channels ?h !! ?p = Some _ |- context [ channels ?h !! ?p ] => rewrite H
  | H : buffers ?h !! ?q = Some _ |- context [ buffers ?h !! ?q ] => rewrite H
  end.

Ltac unfold_ops :=
  unfold channel_send, channel_receive,
    channel_non_blocking_send, channel_non_blocking_receive,
    channel_close, channel_destroy, channel_select,
    pthread_mutex_lock, pthread_mutex_unlock, pthread_mutex_destroy,
    pthread_cond_signal, pthread_cond_broadcast, pthread_cond_destroy,
    pthread_cond_wait, post,
    buffer_current_size, buffer_capacity, buffer_add, buffer_remove,
    buffer_free, free, load, store, load_buffer, store_buffer,
    count_mutex, count_cond,
    bind, ret, fault, block.

Ltac run := unfold_ops; repeat (simpl; try heap_lookup); try reflexivity.

(** Splits an idle channel into its fields. *)
Ltac enter H :=
  let Hc := fresh "Hc" in let Hb := fresh "Hb" in
  let Hl := fresh "Hl" in let Hnf := fresh "Hnf" in
  let Hne := fresh "Hne" in let Hsz := fresh "Hsz" in
  destruct H as [Hc Hb Hl Hnf Hne Hsz];
  match type of Hc with
  | _ = Some ?c => destruct c as [? ? [?|] [?|] ?]; simpl in *; try discriminate
  end;
  match type of Hb with
  | _ = Some ?b => destruct b as [? ?]; simpl in *
  end;
  subst; simpl in *.

Ltac same_heap :=
  apply heap_eq; simpl; rewrite ?insert_insert_eq;
  try reflexivity; try (apply insert_id; assumption).

Lemma done_eq {A} (a : A) (h h' : heap) : h = h' -> Done a h = Done a h'.
Proof. now intros ->. Qed.

Lemma channel_non_blocking_send_closed h p c b data :
  idle h p c b -> closed c = true ->
  channel_non_blocking_send p data h = Done CLOSED_ERROR h.
Proof. intros H Hcl. enter H. run. apply done_eq. same_heap. Qed.

Lemma channel_non_blocking_send_full h p c b data :
  idle h p c b -> closed c = false ->
  length (buf_items b) = buf_capacity b ->
  channel_non_blocking_send p data h = Done CHANNEL_FULL h.
Proof.
  intros H Hcl Hfull. enter H. run.
  rewrite Nat.eqb_refl. run. apply done_eq. same_heap.
Qed.

Lemma channel_non_blocking_send_room h p c b data :
  idle h p c b -> closed c = false ->
  length (buf_items b) < buf_capacity b ->
  channel_non_blocking_send p data h = Done SUCCESS (enqueued p c b data h).
Proof.
  intros H Hcl Hroom. enter H. run.
  rewrite (proj2 (Nat.eqb_neq _ _)) by lia. run.
  rewrite (proj2 (Nat.ltb_lt _ _) Hroom). run.
  apply done_eq. unfold enqueued. same_heap.
Qed.

Lemma channel_non_blocking_receive_closed h p c b data :
  idle h p c b -> closed c = true ->
  channel_non_blocking_receive p data h = Done (CLOSED_ERROR, data) h.
Proof. intros H Hcl. enter H. run. apply done_eq. same_heap. Qed.

Lemma channel_non_blocking_receive_empty h p c b data :
  idle h p c b -> closed c = false -> buf_items b = [] ->
  channel_non_blocking_receive p data h = Done (CHANNEL_EMPTY, data) h.
Proof.
  intros H Hcl Hempty. enter H. run. apply done_eq. same_heap.
Qed.

Lemma channel_non_blocking_receive_item h p c b data x rest :
  idle h p c b -> closed c = false -> buf_items b = x :: rest ->
  channel_non_blocking_receive p data h = Done (SUCCESS, x) (dequeued p c b rest h).
Proof.
  intros H Hcl Hitems. enter H. run. apply done_eq. unfold dequeued. same_heap.
Qed.

(** *** The wait loops, entered with the mutex held *)

Lemma channel_send_wait_exit env p c b h :
  channels h !! p = Some c -> buffers h !! buffer c = Some b ->
  length (buf_items b) <> buf_capacity b ->
  channel_send_wait env p h = Done None h.
Proof.
  intros Hc Hb Hne. destruct env; simpl; run;
    now rewrite (proj2 (Nat.eqb_neq _ _) Hne).
Qed.

Lemma channel_send_wait_closed env p c b h :
  channels h !! p = Some c -> buffers h !! buffer c = Some b ->
  length (buf_items b) = buf_capacity b ->
  closed c = true -> lock c = MUTEX_LOCKED ->
  channel_send_wait env p h =
  Done (Some CLOSED_ERROR) (put_channel p (set_lock c MUTEX_UNLOCKED) h).
Proof.
  intros Hc Hb Hfull Hcl Hl. destruct env; simpl; run;
    rewrite (proj2 (Nat.eqb_eq _ _) Hfull); run; rewrite Hcl; run;
    rewrite Hl; run.
Qed.

Lemma channel_send_wait_sleeps p c b h :
  channels h !! p = Some c -> buffers h !! buffer c = Some b ->
  length (buf_items b) = buf_capacity b ->
  closed c = false -> lock c = MUTEX_LOCKED ->
  cond_live (not_full c) = true ->
  channel_send_wait [] p h = Blocked (put_channel p (set_lock c MUTEX_UNLOCKED) h).
Proof.
  intros Hc Hb Hfull Hcl Hl Hnf. simpl; run.
  rewrite (proj2 (Nat.eqb_eq _ _) Hfull); run. rewrite Hcl; run.
  destruct (not_full c); try discriminate. run. rewrite Hl. run.
Qed.

Lemma channel_receive_wait_exit env p c b h :
  channels h !! p = Some c -> buffers h !! buffer c = Some b ->
  buf_items b <> [] ->
  channel_receive_wait env p h = Done None h.
Proof.
  intros Hc Hb Hne. destruct env; simpl; run;
    now destruct (buf_items b).
Qed.

Lemma channel_receive_wait_closed env p c b h :
  channels h !! p = Some c -> buffers h !! buffer c = Some b ->
  buf_items b = [] ->
  closed c = true -> lock c = MUTEX_LOCKED ->
  channel_receive_wait env p h =
  Done (Some CLOSED_ERROR) (put_channel p (set_lock c MUTEX_UNLOCKED) h).
Proof.
  intros Hc Hb Hempty Hcl Hl. destruct env; simpl; run;
    rewrite Hempty; run; rewrite Hcl; run; rewrite Hl; run.
Qed.

Lemma channel_receive_wait_sleeps p c b h :
  channels h !! p = Some c -> buffers h !! buffer c = Some b ->
  buf_items b = [] ->
  closed c = false -> lock c = MUTEX_LOCKED ->
  cond_live (not_empty c) = true ->
  channel_receive_wait [] p h = Blocked (put_channel p (set_lock c MUTEX_UNLOCKED) h).
Proof.
  intros Hc Hb Hempty Hcl Hl Hnf. simpl; run.
  rewrite Hempty; run. rewrite Hcl; run.
  destruct (not_empty c); try discriminate. run. rewrite Hl. run.
Qed.

(** *** The blocking calls on an idle channel *)

Lemma lock_idle h p c b :
  idle h p c b ->
  pthread_mutex_lock p h = Done tt (put_channel p (set_lock c MUTEX_LOCKED) h).
Proof. intros [Hc _ Hl _ _ _]. run. rewrite Hl. run. Qed.

Lemma channel_send_room env h p c b data :
  idle h p c b -> length (buf_items b) < buf_capacity b ->
  channel_send env p data h = Done SUCCESS (enqueued p c b data h).
Proof.
  intros H Hroom. unfold channel_send, bind at 1. rewrite (lock_idle h p c b H).
  unfold bind at 1.
  rewrite (channel_send_wait_exit env p (set_lock c MUTEX_LOCKED) b);
    [ | apply lookup_insert_eq | now destruct H | lia ].
  enter H. run. rewrite (proj2 (Nat.ltb_lt _ _) Hroom). run.
  apply done_eq. unfold enqueued. same_heap.
Qed.

Lemma channel_send_closed_full env h p c b data :
  idle h p c b -> closed c = true ->
  length (buf_items b) = buf_capacity b ->
  channel_send env p data h = Done CLOSED_ERROR h.
Proof.
  intros H Hcl Hfull. unfold channel_send, bind at 1. rewrite (lock_idle h p c b H).
  unfold bind at 1.
  rewrite (channel_send_wait_closed env p (set_lock c MUTEX_LOCKED) b);
    [ | apply lookup_insert_eq | now destruct H | assumption.. | reflexivity ].
  unfold ret. apply done_eq. destruct H. now apply relock_id.
Qed.

Lemma channel_send_open_full h p c b data :
  idle h p c b -> closed c = false ->
  length (buf_items b) = buf_capacity b ->
  channel_send [] p data h = Blocked h.
Proof.
  intros H Hcl Hfull. unfold channel_send, bind at 1. rewrite (lock_idle h p c b H).
  unfold bind at 1.
  rewrite (channel_send_wait_sleeps p (set_lock c MUTEX_LOCKED) b);
    [ | apply lookup_insert_eq | now destruct H | try assumption.. ];
    [ | reflexivity | now destruct H ].
  f_equal. destruct H. now apply relock_id.
Qed.

Lemma channel_receive_item env h p c b data x rest :
  idle h p c b -> buf_items b = x :: rest ->
  channel_receive env p data h = Done (SUCCESS, x) (dequeued p c b rest h).
Proof.
  intros H Hitems. unfold channel_receive, bind at 1. rewrite (lock_idle h p c b H).
  unfold bind at 1.
  rewrite (channel_receive_wait_exit env p (set_lock c MUTEX_LOCKED) b);
    [ | apply lookup_insert_eq | now destruct H | now rewrite Hitems ].
  enter H. run. apply done_eq. unfold dequeued. same_heap.
Qed.

Lemma channel_receive_closed_empty env h p c b data :
  idle h p c b -> closed c = true -> buf_items b = [] ->
  channel_receive env p data h = Done (CLOSED_ERROR, data) h.
Proof.
  intros H Hcl Hempty. unfold channel_receive, bind at 1. rewrite (lock_idle h p c b H).
  unfold bind at 1.
  rewrite (channel_receive_wait_closed env p (set_lock c MUTEX_LOCKED) b);
    [ | apply lookup_insert_eq | now destruct H | assumption.. | reflexivity ].
  unfold ret. apply done_eq. destruct H. now apply relock_id.
Qed.

Lemma channel_receive_open_empty h p c b data :
  idle h p c b -> closed c = false -> buf_items b = [] ->
  channel_receive [] p data h = Blocked h.
Proof.
  intros H Hcl Hempty. unfold channel_receive, bind at 1. rewrite (lock_idle h p c b H).
  unfold bind at 1.
  rewrite (channel_receive_wait_sleeps p (set_lock c MUTEX_LOCKED) b);
    [ | apply lookup_insert_eq | now destruct H | try assumption.. ];
    [ | reflexivity | now destruct H ].
  f_equal. destruct H. now apply relock_id.
Qed.

(** *** Waking up *)

(** A send sleeping on a full channel goes through once another thread has
    received an item. *)
Example channel_send_woken_by_receive :
  let h := one_channel (open_struct 10) [5%Z; 6%Z] in
  channel_send [] 1 7%Z h = Blocked h /\
  exists h',
    channel_send [other_thread (channel_receive [] 1 0%Z)] 1 7%Z h =
      Done SUCCESS h' /\
    contents h' 1 = Some [6%Z; 7%Z].
Proof.
  split; [ vm_compute; reflexivity | ].
  eexists. split; vm_compute; reflexivity.
Qed.

(** A send sleeping on a full channel gives up once another thread has closed
    the channel, and a spurious wake-up sends it back to sleep. *)
Example channel_send_woken_by_close :
  let h := one_channel (open_struct 10) [5%Z; 6%Z] in
  (exists h',
     channel_send [fun h => h; other_thread (channel_close 1)] 1 7%Z h =
       Done CLOSED_ERROR h' /\
     contents h' 1 = Some [5%Z; 6%Z] /\ closed_at h' 1 = Some true) /\
  channel_send [fun h => h] 1 7%Z h = Blocked h.
Proof.
  split; [ eexists; repeat split | ]; vm_compute; reflexivity.
Qed.

(** *** Close and destroy *)

Lemma channel_close_open h p c b :
  idle h p c b -> closed c = false ->
  channel_close p h = Done SUCCESS (put_channel p (close_struct c) h).
Proof. intros H Hcl. enter H. run. apply done_eq. same_heap. Qed.

Lemma channel_close_closed h p c b :
  idle h p c b -> closed c = true ->
  channel_close p h = Done CLOSED_ERROR h.
Proof. intros H Hcl. enter H. run. apply done_eq. same_heap. Qed.

Lemma channel_destroy_open h p c :
  channels h !! p = Some c -> closed c = false ->
  channel_destroy p h = Done DESTROY_ERROR h.
Proof. intros Hc Hcl. run. rewrite Hcl. run. Qed.

Lemma channel_destroy_closed h p c b :
  idle h p c b -> closed c = true ->
  channel_destroy p h = Done SUCCESS (destroyed p c h).
Proof.
  intros H Hcl. enter H. run.
  apply done_eq, heap_eq; simpl; try reflexivity.
  now rewrite !insert_insert_eq, delete_insert_eq.
Qed.

(** ** Inverting a run that returned *)

Lemma bind_inv {A B} (m : M A) (k : A -> M B) h r h' :
  bind m k h = Done r h' ->
  exists a h1, m h = Done a h1 /\ k a h1 = Done r h'.
Proof.
  unfold bind. destruct (m h) as [a h1| |]; try discriminate. eauto.
Qed.

Lemma returns_only_ret {A} (P : A -> Prop) (a : A) : P a -> returns_only P (ret a).
Proof. intros Ha h r h' H. now inversion H; subst. Qed.

Lemma returns_only_bind {A B} (P : B -> Prop) (m : M A) (k : A -> M B) :
  (forall a, returns_only P (k a)) -> returns_only P (bind m k).
Proof.
  intros Hk h r h' H. apply bind_inv in H as (a & h1 & _ & H). now apply (Hk a h1 r h').
Qed.

Lemma load_inv {A} p (f : channel_t -> A) h v h' :
  load p f h = Done v h' ->
  h' = h /\ exists c, channels h !! p = Some c /\ v = f c.
Proof.
  unfold load. destruct (channels h !! p) as [c|] eqn:Hc; try discriminate.
  intros H; inversion H; subst. eauto.
Qed.

Lemma store_inv p upd h u h' :
  store p upd h = Done u h' ->
  exists c, channels h !! p = Some c /\ h' = put_channel p (upd c) h.
Proof.
  unfold store. destruct (channels h !! p) as [c|] eqn:Hc; try discriminate.
  intros H; inversion H; subst. eauto.
Qed.

Lemma pthread_mutex_lock_inv p h u h' :
  pthread_mutex_lock p h = Done u h' ->
  exists c, channels h !! p = Some c /\ lock c = MUTEX_UNLOCKED /\
            h' = put_channel p (set_lock c MUTEX_LOCKED) h.
Proof.
  unfold pthread_mutex_lock. intros H.
  apply bind_inv in H as (m & h1 & Hm & H).
  apply load_inv in Hm as (-> & c & Hc & ->).
  destruct (lock c) eqn:Hl; try discriminate.
  apply store_inv in H as (c' & Hc' & ->).
  rewrite Hc in Hc'; inversion Hc'; subst. eauto.
Qed.

Lemma pthread_mutex_unlock_inv p h u h' :
  pthread_mutex_unlock p h = Done u h' ->
  exists c, channels h !! p = Some c /\ lock c = MUTEX_LOCKED /\
            h' = put_channel p (set_lock c MUTEX_UNLOCKED) h.
Proof.
  unfold pthread_mutex_unlock. intros H.
  apply bind_inv in H as (m & h1 & Hm & H).
  apply load_inv in Hm as (-> & c & Hc & ->).
  destruct (lock c) eqn:Hl; try discriminate.
  apply store_inv in H as (c' & Hc' & ->).
  rewrite Hc in Hc'; inversion Hc'; subst. eauto.
Qed.

Lemma buffer_current_size_inv q h n h' :
  buffer_current_size q h = Done n h' ->
  h' = h /\ exists b, buffers h !! q = Some b /\ n = length (buf_items b).
Proof.
  unfold buffer_current_size, bind, load_buffer, ret.
  destruct (buffers h !! q) as [b|] eqn:Hb; try discriminate.
  intros H; inversion H; subst. eauto.
Qed.

Lemma buffer_capacity_inv q h n h' :
  buffer_capacity q h = Done n h' ->
  h' = h /\ exists b, buffers h !! q = Some b /\ n = buf_capacity b.
Proof.
  unfold buffer_capacity, bind, load_buffer, ret.
  destruct (buffers h !! q) as [b|] eqn:Hb; try discriminate.
  intros H; inversion H; subst. eauto.
Qed.

Lemma early_return_tail full f env p h h2 s h' :
  early_return full env p h2 s h' -> early_return full (f :: env) p h s h'.
Proof.
  intros (-> & h1 & c & b & ? & ? & ? & ? & ? & ? & _).
  split; [ reflexivity | ].
  exists h1, c, b. repeat split; try assumption. discriminate.
Qed.

Lemma channel_send_wait_early env :
  forall p h s h',
    channel_send_wait env p h = Done (Some s) h' ->
    early_return (fun b => length (buf_items b) = buf_capacity b) env p h s h'.
Proof.
  induction env as [|f env IH]; intros p h s h' H; simpl in H;
    apply bind_inv in H as (q & h1 & Hq & H);
    apply load_inv in Hq as (-> & c & Hc & ->);
    apply bind_inv in H as (n & h1 & Hn & H);
    apply buffer_current_size_inv in Hn as (-> & b & Hb & ->);
    apply bind_inv in H as (m & h1 & Hm & H);
    apply buffer_capacity_inv in Hm as (-> & b' & Hb' & ->);
    rewrite Hb in Hb'; inversion Hb'; subst b'; clear Hb';
    (destruct (length (buf_items b) =? buf_capacity b) eqn:Hfull;
       [ apply Nat.eqb_eq in Hfull | discriminate ]);
    apply bind_inv in H as (cl & h1 & Hcl & H);
    apply load_inv in Hcl as (-> & c' & Hc' & ->);
    rewrite Hc in Hc'; inversion Hc'; subst c'; clear Hc';
    destruct (closed c) eqn:Hclosed.
  - apply bind_inv in H as (u & h1 & Hu & H).
    apply pthread_mutex_unlock_inv in Hu as (c' & Hc' & Hl & ->).
    rewrite Hc in Hc'; inversion Hc'; subst c'. inversion H; subst.
    split; [ reflexivity | ]. exists h, c, b. now repeat split.
  - apply bind_inv in H as (u & h1 & _ & H). discriminate.
  - apply bind_inv in H as (u & h1 & Hu & H).
    apply pthread_mutex_unlock_inv in Hu as (c' & Hc' & Hl & ->).
    rewrite Hc in Hc'; inversion Hc'; subst c'. inversion H; subst.
    split; [ reflexivity | ]. exists h, c, b. now repeat split.
  - apply bind_inv in H as (u & h1 & _ & H).
    eapply early_return_tail, IH, H.
Qed.

Lemma channel_receive_wait_early env :
  forall p h s h',
    channel_receive_wait env p h = Done (Some s) h' ->
    early_return (fun b => buf_items b = []) env p h s h'.
Proof.
  induction env as [|f env IH]; intros p h s h' H; simpl in H;
    apply bind_inv in H as (q & h1 & Hq & H);
    apply load_inv in Hq as (-> & c & Hc & ->);
    apply bind_inv in H as (n & h1 & Hn & H);
    apply buffer_current_size_inv in Hn as (-> & b & Hb & ->);
    (destruct (buf_items b) as [|x rest] eqn:Hitems; [ | discriminate ]);
    simpl in H;
    apply bind_inv in H as (cl & h1 & Hcl & H);
    apply load_inv in Hcl as (-> & c' & Hc' & ->);
    rewrite Hc in Hc'; inversion Hc'; subst c'; clear Hc';
    destruct (closed c) eqn:Hclosed.
  - apply bind_inv in H as (u & h1 & Hu & H).
    apply pthread_mutex_unlock_inv in Hu as (c' & Hc' & Hl & ->).
    rewrite Hc in Hc'; inversion Hc'; subst c'. inversion H; subst.
    split; [ reflexivity | ]. exists h, c, b. now repeat split.
  - apply bind_inv in H as (u & h1 & _ & H). discriminate.
  - apply bind_inv in H as (u & h1 & Hu & H).
    apply pthread_mutex_unlock_inv in Hu as (c' & Hc' & Hl & ->).
    rewrite Hc in Hc'; inversion Hc'; subst c'. inversion H; subst.
    split; [ reflexivity | ]. exists h, c, b. now repeat split.
  - apply bind_inv in H as (u & h1 & _ & H).
    eapply early_return_tail, IH, H.
Qed.

(** ** Observations after an update *)

Lemma closed_at_put p c h : closed_at (put_channel p c h) p = Some (closed c).
Proof. unfold closed_at. simpl. now rewrite lookup_insert_eq. Qed.

Lemma lock_at_put p c h : lock_at (put_channel p c h) p = Some (lock c).
Proof. unfold lock_at. simpl. now rewrite lookup_insert_eq. Qed.

Lemma contents_put p c h b :
  buffers h !! buffer c = Some b ->
  contents (put_channel p c h) p = Some (buf_items b).
Proof.
  intros Hb. unfold contents. simpl. rewrite lookup_insert_eq. simpl.
  now rewrite Hb.
Qed.

Lemma contents_idle h p c b : idle h p c b -> contents h p = Some (buf_items b).
Proof.
  intros [Hc Hb _ _ _ _]. unfold contents. rewrite Hc. simpl. now rewrite Hb.
Qed.

Lemma one_channel_idle c items :
  buffer c = 10 -> lock c = MUTEX_UNLOCKED ->
  cond_live (not_full c) = true -> cond_live (not_empty c) = true ->
  length items <= 2 ->
  idle (one_channel c items) 1 c (mkBuffer 2 items).
Proof.
  intros Hb Hl Hnf Hne Hsz. constructor; try assumption.
  - reflexivity.
  - rewrite Hb. reflexivity.
Defined.

(** ** Sends on a closed channel *)

(** C1, at a closed channel with two free slots: the non-blocking send
    reports CLOSED_ERROR and leaves the heap alone, but the blocking send,
    which looks at the closed flag only while the buffer is full, enqueues the
    item and returns SUCCESS. *)
Theorem channel_send_closed_with_room :
  let h := one_channel (shut_struct 10) [] in
  closed_at h 1 = Some true /\
  contents h 1 = Some [] /\
  channel_non_blocking_send 1 7%Z h = Done CLOSED_ERROR h /\
  channel_send [] 1 7%Z h = Done SUCCESS (enqueued 1 (shut_struct 10) (mkBuffer 2 []) 7%Z h) /\
  contents (enqueued 1 (shut_struct 10) (mkBuffer 2 []) 7%Z h) 1 = Some [7%Z].
Proof.
  intros h. repeat split; vm_compute; reflexivity.
Qed.

(** ** Receive on a closed channel *)

(** C3: on a closed channel that still buffers items, the blocking receive
    returns SUCCESS with the oldest item in the output slot and leaves the
    rest buffered; on a closed channel with an empty buffer it returns
    CLOSED_ERROR, the slot and the heap untouched.  Whenever it returns
    CLOSED_ERROR, whatever the other threads did during the waits, the slot
    is untouched and the channel is closed with an empty buffer at the
    return; without other threads the heap is the one of the call. *)
Theorem channel_receive_drains_closed_channel
    (env : list interference) (h : heap) (p : ptr) (c : channel_t)
    (b : buffer_t) (data : void_ptr) :
  idle h p c b ->
  (closed c = true ->
   forall x rest, buf_items b = x :: rest ->
     channel_receive env p data h = Done (SUCCESS, x) (dequeued p c b rest h) /\
     contents (dequeued p c b rest h) p = Some rest) /\
  (closed c = true -> buf_items b = [] ->
   channel_receive env p data h = Done (CLOSED_ERROR, data) h) /\
  (forall v h',
     channel_receive env p data h = Done (CLOSED_ERROR, v) h' ->
     v = data /\ closed_at h' p = Some true /\ contents h' p = Some [] /\
     (env = [] -> h' = h /\ closed c = true /\ buf_items b = [])).
Proof.
  intros Hi. split; [ | split ].
  - intros _ x rest Hitems. split.
    + now apply (channel_receive_item env h p c b).
    + unfold dequeued.
      apply (contents_put _ _ _ (mkBuffer (buf_capacity b) rest)).
      simpl. apply lookup_insert_eq.
  - intros Hcl Hempty. now apply (channel_receive_closed_empty env h p c b).
  - intros v h' H. unfold channel_receive in H.
    apply bind_inv in H as (u & h1 & Hlock & H).
    apply bind_inv in H as ([s|] & h2 & Hwait & H).
    + inversion H; subst.
      apply channel_receive_wait_early in Hwait
        as (_ & h3 & c3 & b3 & Hc3 & Hb3 & Hl3 & Hcl3 & He3 & -> & Hnil).
      split; [ reflexivity | ].
      split; [ rewrite closed_at_put; simpl; now rewrite Hcl3 | ].
      split; [ now rewrite (contents_put p (set_lock c3 MUTEX_UNLOCKED) h3 b3 Hb3), He3 | ].
      intros ->. specialize (Hnil eq_refl). subst h3.
      rewrite (lock_idle h p c b Hi) in Hlock. inversion Hlock; subst h1.
      simpl in Hc3. rewrite lookup_insert_eq in Hc3. inversion Hc3; subst c3.
      simpl in Hb3, Hcl3. destruct Hi as [Hc Hb Hl _ _ _].
      rewrite Hb in Hb3. inversion Hb3; subst b3.
      split; [ now apply relock_id | now split ].
    + exfalso. revert H. generalize h2.
      assert (R : returns_only (fun r => fst r = SUCCESS)
                    (let* q := load p buffer in
                     let* x := buffer_remove q in
                     pthread_cond_signal p NOT_FULL ;;;
                     pthread_mutex_unlock p ;;; ret (SUCCESS, x))).
      { repeat (apply returns_only_bind; intros). now apply returns_only_ret. }
      intros h4 H. apply R in H. discriminate.
Qed.

Lemma channel_receive_drains_closed_channel_witness :
  let h := one_channel (shut_struct 10) [5%Z; 6%Z] in
  idle h 1 (shut_struct 10) (mkBuffer 2 [5%Z; 6%Z]) /\
  channel_receive [] 1 0%Z h =
    Done (SUCCESS, 5%Z) (dequeued 1 (shut_struct 10) (mkBuffer 2 [5%Z; 6%Z]) [6%Z] h).
Proof.
  intros h.
  assert (Hi : idle h 1 (shut_struct 10) (mkBuffer 2 [5%Z; 6%Z]))
    by (apply one_channel_idle; simpl; (reflexivity || lia)).
  split; [ exact Hi | ].
  apply (proj1 (channel_receive_drains_closed_channel [] h 1 _ _ 0%Z Hi)
           eq_refl 5%Z [6%Z] eq_refl).
Defined.

(** ** The non-blocking calls *)

(** C4: the non-blocking send and receive look at the closed flag first.  On
    a closed channel they return CLOSED_ERROR, whatever the buffer holds,
    and the heap is the one of the call; on an open channel that is full
    (send) or empty (receive) they return CHANNEL_FULL or CHANNEL_EMPTY, the
    heap and the slot untouched; otherwise they enqueue or dequeue and return
    SUCCESS. *)
Theorem non_blocking_closed_before_capacity
    (h : heap) (p : ptr) (c : channel_t) (b : buffer_t) (data : void_ptr) :
  idle h p c b ->
  (closed c = true ->
   channel_non_blocking_send p data h = Done CLOSED_ERROR h /\
   channel_non_blocking_receive p data h = Done (CLOSED_ERROR, data) h) /\
  (closed c = false -> length (buf_items b) = buf_capacity b ->
   channel_non_blocking_send p data h = Done CHANNEL_FULL h) /\
  (closed c = false -> buf_items b = [] ->
   channel_non_blocking_receive p data h = Done (CHANNEL_EMPTY, data) h) /\
  (closed c = false -> length (buf_items b) < buf_capacity b ->
   channel_non_blocking_send p data h = Done SUCCESS (enqueued p c b data h) /\
   contents (enqueued p c b data h) p = Some (buf_items b ++ [data])) /\
  (closed c = false -> forall x rest, buf_items b = x :: rest ->
   channel_non_blocking_receive p data h = Done (SUCCESS, x) (dequeued p c b rest h) /\
   contents (dequeued p c b rest h) p = Some rest).
Proof.
  intros Hi. repeat split; intros.
  - now apply (channel_non_blocking_send_closed h p c b).
  - now apply (channel_non_blocking_receive_closed h p c b).
  - now apply (channel_non_blocking_send_full h p c b).
  - now apply (channel_non_blocking_receive_empty h p c b).
  - now apply (channel_non_blocking_send_room h p c b).
  - unfold enqueued.
    apply (contents_put _ _ _ (mkBuffer (buf_capacity b) (buf_items b ++ [data]))).
    simpl. apply lookup_insert_eq.
  - now apply (channel_non_blocking_receive_item h p c b).
  - unfold dequeued.
    apply (contents_put _ _ _ (mkBuffer (buf_capacity b) rest)).
    simpl. apply lookup_insert_eq.
Qed.

Lemma non_blocking_closed_before_capacity_witness :
  let h := one_channel (shut_struct 10) [5%Z; 6%Z] in
  idle h 1 (shut_struct 10) (mkBuffer 2 [5%Z; 6%Z]) /\
  channel_non_blocking_send 1 7%Z h = Done CLOSED_ERROR h /\
  channel_non_blocking_receive 1 7%Z h = Done (CLOSED_ERROR, 7%Z) h.
Proof.
  intros h.
  assert (Hi : idle h 1 (shut_struct 10) (mkBuffer 2 [5%Z; 6%Z]))
    by (apply one_channel_idle; simpl; (reflexivity || lia)).
  split; [ exact Hi | ].
  apply (proj1 (non_blocking_closed_before_capacity h 1 _ _ 7%Z Hi) eq_refl).
Defined.

(** ** Close *)

Lemma close_struct_idle h p c b :
  idle h p c b -> idle (put_channel p (close_struct c) h) p (close_struct c) b.
Proof.
  intros [Hc Hb Hl Hnf Hne Hsz]. constructor; simpl; try assumption.
  - apply lookup_insert_eq.
  - now destruct (not_full c).
  - now destruct (not_empty c).
Qed.

(** C5: closing an open channel sets the closed flag and returns SUCCESS;
    closing a closed channel returns CLOSED_ERROR and leaves the heap as it
    was.  Neither touches a buffer, so the buffered items stay; two closes in
    a row return SUCCESS and then CLOSED_ERROR. *)
Theorem channel_close_once
    (h : heap) (p : ptr) (c : channel_t) (b : buffer_t) :
  idle h p c b ->
  (closed c = false ->
   channel_close p h = Done SUCCESS (put_channel p (close_struct c) h) /\
   closed_at (put_channel p (close_struct c) h) p = Some true /\
   buffers (put_channel p (close_struct c) h) = buffers h /\
   contents (put_channel p (close_struct c) h) p = Some (buf_items b) /\
   (let* first := channel_close p in
    let* second := channel_close p in
    ret (first, second)) h =
   Done (SUCCESS, CLOSED_ERROR) (put_channel p (close_struct c) h)) /\
  (closed c = true -> channel_close p h = Done CLOSED_ERROR h).
Proof.
  intros Hi. split.
  - intros Hopen.
    pose proof (channel_close_open h p c b Hi Hopen) as H1.
    repeat split.
    + exact H1.
    + apply closed_at_put.
    + apply (contents_put p (close_struct c) h b). now destruct Hi.
    + unfold bind at 1. rewrite H1. unfold bind at 1.
      now rewrite (channel_close_closed _ p _ b (close_struct_idle h p c b Hi)).
  - intros Hshut. now apply (channel_close_closed h p c b).
Qed.

Lemma channel_close_once_witness :
  let h := one_channel (open_struct 10) [5%Z] in
  idle h 1 (open_struct 10) (mkBuffer 2 [5%Z]) /\
  channel_close 1 h = Done SUCCESS (one_channel (shut_struct 10) [5%Z]).
Proof.
  intros h.
  assert (Hi : idle h 1 (open_struct 10) (mkBuffer 2 [5%Z]))
    by (apply one_channel_idle; simpl; (reflexivity || lia)).
  split; [ exact Hi | ].
  exact (proj1 (proj1 (channel_close_once h 1 _ _ Hi) eq_refl)).
Defined.

(** ** Destroy *)

(** C6: destroying an open channel returns DESTROY_ERROR and the heap,
    with the struct, its mutex and condition variables, the buffer and what
    the pthread library holds, is exactly the heap of the call, whoever holds
    the mutex.  Destroying a closed channel on which no thread is at work
    returns SUCCESS and releases everything the channel owns: the buffer and
    the struct are freed, and the mutex and the two condition variables are
    destroyed, so one mutex and two condition variables fewer are
    initialised. *)
Theorem channel_destroy_needs_close
    (h : heap) (p : ptr) (c : channel_t) (b : buffer_t) :
  channels h !! p = Some c ->
  (closed c = false -> channel_destroy p h = Done DESTROY_ERROR h) /\
  (closed c = true -> idle h p c b ->
   exists h',
     channel_destroy p h = Done SUCCESS h' /\
     channels h' = delete p (channels h) /\
     buffers h' = delete (buffer c) (buffers h) /\
     channels h' !! p = None /\ buffers h' !! buffer c = None /\
     mutexes h' = (mutexes h - 1)%Z /\ conds h' = (conds h - 2)%Z).
Proof.
  intros Hc. split.
  - intros Hopen. now apply (channel_destroy_open h p c).
  - intros Hshut Hi. exists (destroyed p c h). split.
    + now apply (channel_destroy_closed h p c b).
    + simpl. repeat split; try apply lookup_delete_eq; lia.
Qed.

Lemma channel_destroy_needs_close_witness :
  let h := one_channel (open_struct 10) [5%Z] in
  let h' := one_channel (shut_struct 10) [5%Z] in
  (channels h !! 1 = Some (open_struct 10) /\
   channel_destroy 1 h = Done DESTROY_ERROR h) /\
  (channels h' !! 1 = Some (shut_struct 10) /\
   idle h' 1 (shut_struct 10) (mkBuffer 2 [5%Z]) /\
   exists h'',
     channel_destroy 1 h' = Done SUCCESS h'' /\
     channels h'' !! 1 = None /\ buffers h'' !! 10 = None /\
     mutexes h'' = 0%Z /\ conds h'' = 0%Z).
Proof.
  intros h h'. split.
  - split; [ reflexivity | ].
    exact (proj1 (channel_destroy_needs_close h 1 (open_struct 10)
                    (mkBuffer 2 [5%Z]) eq_refl) eq_refl).
  - assert (Hi : idle h' 1 (shut_struct 10) (mkBuffer 2 [5%Z]))
      by (apply one_channel_idle; simpl; (reflexivity || lia)).
    split; [ reflexivity | split; [ exact Hi | ] ].
    destruct (proj2 (channel_destroy_needs_close h' 1 (shut_struct 10)
                       (mkBuffer 2 [5%Z]) eq_refl) eq_refl Hi)
      as (h'' & Hrun & _ & _ & Hp & Hq & Hm & Hv).
    exists h''. repeat split; assumption.
Defined.

(** ** Failing calls *)

(** Case analysis on every lookup and test of a run that returned. *)
Ltac crunch :=
  repeat (simpl; unfold_ops;
    match goal with
    | |- context [ <[?p := _]> _ !! ?p ] => rewrite lookup_insert_eq
    | |- context [ match ?x with _ => _ end ] =>
        lazymatch x with
        | context [ match _ with _ => _ end ] => fail
        | _ => destruct x eqn:?
        end
    | |- (_ = _) -> _ =>
        let H := fresh in intros H; inversion H; subst; clear H
    end).

Lemma failing_call_keeps_heap op p h s h' :
  perform op [] p h = Done s h' -> s <> SUCCESS -> h' = h.
Proof.
  intros H Hs.
  revert H. destruct op; unfold perform; crunch; try congruence;
    repeat match goal with
           | E : Some _ = Some _ |- _ => inversion E; subst; clear E
           end;
    now apply relock_id.
Qed.

Lemma perform_without_wait op env p :
  blocking op = false -> perform op env p = perform op [] p.
Proof. now destruct op. Qed.

Lemma contents_put_same p c c' h :
  channels h !! p = Some c -> buffer c' = buffer c ->
  contents (put_channel p c' h) p = contents h p.
Proof.
  intros Hc Hb. unfold contents. simpl. rewrite lookup_insert_eq, Hc. simpl.
  now rewrite Hb.
Qed.

Lemma pthread_mutex_lock_keeps p h u h' :
  pthread_mutex_lock p h = Done u h' -> contents h' p = contents h p.
Proof.
  intros H. apply pthread_mutex_lock_inv in H as (c & Hc & _ & ->).
  now apply (contents_put_same p c).
Qed.

Lemma pthread_mutex_unlock_keeps p h u h' :
  pthread_mutex_unlock p h = Done u h' -> contents h' p = contents h p.
Proof.
  intros H. apply pthread_mutex_unlock_inv in H as (c & Hc & _ & ->).
  now apply (contents_put_same p c).
Qed.

Lemma pthread_cond_wait_keeps f p cv h u h' :
  keeps_contents p f ->
  pthread_cond_wait (Some f) p cv h = Done u h' ->
  contents h' p = contents h p.
Proof.
  intros Hf H. unfold pthread_cond_wait in H.
  apply bind_inv in H as (v & h1 & Hv & H).
  apply load_inv in Hv as (-> & _).
  destruct v; [ | discriminate ].
  apply bind_inv in H as (u1 & h1 & Hu & H).
  apply bind_inv in H as (u2 & h2 & Hstep & H).
  inversion Hstep; subst.
  rewrite (pthread_mutex_lock_keeps _ _ _ _ H), Hf.
  now apply (pthread_mutex_unlock_keeps p h u1).
Qed.

(** A wait loop that makes the function return has left the buffered items
    alone, as long as the other threads did. *)
Lemma channel_send_wait_keeps env p :
  Forall (keeps_contents p) env ->
  forall h s h',
    channel_send_wait env p h = Done (Some s) h' ->
    contents h' p = contents h p.
Proof.
  induction 1 as [|f env Hf Henv IH]; intros h s h' H; simpl in H;
    apply bind_inv in H as (q & h1 & Hq & H);
    apply load_inv in Hq as (-> & _);
    apply bind_inv in H as (n & h1 & Hn & H);
    apply buffer_current_size_inv in Hn as (-> & _);
    apply bind_inv in H as (m & h1 & Hm & H);
    apply buffer_capacity_inv in Hm as (-> & _);
    (destruct (n =? m); [ | discriminate ]);
    apply bind_inv in H as (cl & h1 & Hcl & H);
    apply load_inv in Hcl as (-> & _);
    destruct cl.
  - apply bind_inv in H as (u & h1 & Hu & H). inversion H; subst.
    now apply (pthread_mutex_unlock_keeps p h u).
  - apply bind_inv in H as (u & h1 & _ & H). discriminate.
  - apply bind_inv in H as (u & h1 & Hu & H). inversion H; subst.
    now apply (pthread_mutex_unlock_keeps p h u).
  - apply bind_inv in H as (u & h1 & Hw & H).
    rewrite (IH _ _ _ H). now apply (pthread_cond_wait_keeps f p NOT_FULL h u).
Qed.

Lemma channel_receive_wait_keeps env p :
  Forall (keeps_contents p) env ->
  forall h s h',
    channel_receive_wait env p h = Done (Some s) h' ->
    contents h' p = contents h p.
Proof.
  induction 1 as [|f env Hf Henv IH]; intros h s h' H; simpl in H;
    apply bind_inv in H as (q & h1 & Hq & H);
    apply load_inv in Hq as (-> & _);
    apply bind_inv in H as (n & h1 & Hn & H);
    apply buffer_current_size_inv in Hn as (-> & _);
    (destruct (n =? 0); [ | discriminate ]);
    apply bind_inv in H as (cl & h1 & Hcl & H);
    apply load_inv in Hcl as (-> & _);
    destruct cl.
  - apply bind_inv in H as (u & h1 & Hu & H). inversion H; subst.
    now apply (pthread_mutex_unlock_keeps p h u).
  - apply bind_inv in H as (u & h1 & _ & H). discriminate.
  - apply bind_inv in H as (u & h1 & Hu & H). inversion H; subst.
    now apply (pthread_mutex_unlock_keeps p h u).
  - apply bind_inv in H as (u & h1 & Hw & H).
    rewrite (IH _ _ _ H). now apply (pthread_cond_wait_keeps f p NOT_EMPTY h u).
Qed.

Lemma channel_send_failure_keeps env p data h s h' :
  Forall (keeps_contents p) env ->
  channel_send env p data h = Done s h' -> s <> SUCCESS ->
  contents h' p = contents h p.
Proof.
  intros Henv H Hs. unfold channel_send in H.
  apply bind_inv in H as (u & h1 & Hlock & H).
  apply bind_inv in H as ([s0|] & h2 & Hwait & H).
  - inversion H; subst.
    rewrite (channel_send_wait_keeps env p Henv _ _ _ Hwait).
    now apply (pthread_mutex_lock_keeps p h u).
  - exfalso. apply Hs. revert H. generalize h2.
    assert (R : returns_only (fun r => r = SUCCESS)
                  (let* q := load p buffer in
                   buffer_add q data ;;;
                   pthread_cond_signal p NOT_EMPTY ;;;
                   pthread_mutex_unlock p ;;; ret SUCCESS)).
    { repeat (apply returns_only_bind; intros). now apply returns_only_ret. }
    intros h4 H. now apply R in H.
Qed.

Lemma channel_receive_failure_keeps env p data h s v h' :
  Forall (keeps_contents p) env ->
  channel_receive env p data h = Done (s, v) h' -> s <> SUCCESS ->
  contents h' p = contents h p.
Proof.
  intros Henv H Hs. unfold channel_receive in H.
  apply bind_inv in H as (u & h1 & Hlock & H).
  apply bind_inv in H as ([s0|] & h2 & Hwait & H).
  - inversion H; subst.
    rewrite (channel_receive_wait_keeps env p Henv _ _ _ Hwait).
    now apply (pthread_mutex_lock_keeps p h u).
  - exfalso. apply Hs. revert H. generalize h2.
    assert (R : returns_only (fun r => fst r = SUCCESS)
                  (let* q := load p buffer in
                   let* x := buffer_remove q in
                   pthread_cond_signal p NOT_FULL ;;;
                   pthread_mutex_unlock p ;;; ret (SUCCESS, x))).
    { repeat (apply returns_only_bind; intros). now apply returns_only_ret. }
    intros h4 H. now apply R in H.
Qed.

(** A close by another thread leaves the buffered items alone. *)
Lemma channel_close_keeps_contents p :
  keeps_contents p (other_thread (channel_close p)).
Proof.
  intros h. unfold other_thread.
  destruct (channel_close p h) as [s h'| |] eqn:E; try reflexivity.
  revert E. crunch;
    repeat match goal with
           | E : Some _ = Some _ |- _ => inversion E; subst; clear E
           end;
    unfold contents; simpl; rewrite ?lookup_insert_eq; simpl;
    match goal with
    | Hc : channels _ !! _ = Some _ |- _ => now rewrite Hc
    end.
Qed.

(** C7: when [channel_send], [channel_receive], their non-blocking
    variants, [channel_close] or [channel_destroy] returns a status other
    than SUCCESS, the items buffered in the channel at the return are the
    items buffered at the call, whatever the other threads did while the call
    waited, as long as they left the buffered items alone themselves: the
    failing call, also one that fails after it has slept, adds and removes
    nothing.  When the call does not wait (a non-blocking call, a close or a
    destroy, or no other thread at work) the whole heap at the return is the
    heap of the call. *)
Theorem failing_call_changes_nothing
    (op : operation) (env : list interference) (p : ptr) (h : heap)
    (s : channel_status) (h' : heap) :
  Forall (keeps_contents p) env ->
  perform op env p h = Done s h' -> s <> SUCCESS ->
  contents h' p = contents h p /\
  (env = [] \/ blocking op = false -> h' = h /\ buffers h' = buffers h).
Proof.
  intros Henv H Hs.
  assert (Hseq : env = [] \/ blocking op = false -> h' = h).
  { intros [-> | Hnb].
    - now apply (failing_call_keeps_heap op p h s h').
    - rewrite (perform_without_wait op env p Hnb) in H.
      now apply (failing_call_keeps_heap op p h s h'). }
  split; [ | intros Hor; now rewrite (Hseq Hor) ].
  destruct op as [data|data|data|data| | ];
    try (rewrite (Hseq (or_intror eq_refl)); reflexivity).
  - now apply (channel_send_failure_keeps env p data h s h').
  - unfold perform in H. apply bind_inv in H as ([s0 v] & h1 & Hrecv & H).
    inversion H; subst.
    eapply channel_receive_failure_keeps; [ exact Henv | exact Hrecv | exact Hs ].
Qed.

Lemma failing_call_changes_nothing_witness :
  let h := one_channel (open_struct 10) [5%Z; 6%Z] in
  let h' := one_channel (shut_struct 10) [5%Z; 6%Z] in
  Forall (keeps_contents 1) [other_thread (channel_close 1)] /\
  perform (Send 7%Z) [other_thread (channel_close 1)] 1 h = Done CLOSED_ERROR h' /\
  CLOSED_ERROR <> SUCCESS /\
  contents h' 1 = contents h 1.
Proof.
  intros h h'.
  assert (Henv : Forall (keeps_contents 1) [other_thread (channel_close 1)])
    by (constructor; [ apply channel_close_keeps_contents | constructor ]).
  assert (Hrun : perform (Send 7%Z) [other_thread (channel_close 1)] 1 h =
                 Done CLOSED_ERROR h') by reflexivity.
  assert (Hs : CLOSED_ERROR <> SUCCESS) by discriminate.
  split; [ exact Henv | split; [ exact Hrun | split; [ exact Hs | ] ] ].
  exact (proj1 (failing_call_changes_nothing (Send 7%Z) _ 1 h CLOSED_ERROR h'
                  Henv Hrun Hs)).
Defined.

(** ** The lock on the CLOSED_ERROR paths *)

(** C9 as stated fails: a blocking send on a closed full channel and a
    blocking receive on a closed empty channel return CLOSED_ERROR with
    the mutex released, not held. *)
Lemma closed_error_keeps_lock_counterexample :
  ~ (forall env p data h h',
       channel_send env p data h = Done CLOSED_ERROR h' ->
       lock_at h' p = Some MUTEX_LOCKED) /\
  ~ (forall env p data v h h',
       channel_receive env p data h = Done (CLOSED_ERROR, v) h' ->
       lock_at h' p = Some MUTEX_LOCKED).
Proof.
  split; intros H.
  - specialize (H [] 1 7%Z (one_channel (shut_struct 10) [5%Z; 6%Z]) _ eq_refl).
    discriminate H.
  - specialize (H [] 1 7%Z 7%Z (one_channel (shut_struct 10) []) _ eq_refl).
    discriminate H.
Qed.

(** C9, amended: whenever [channel_send] or [channel_receive] returns
    CLOSED_ERROR, whatever the other threads did during the waits, the
    channel's mutex has been released at the return. *)
Theorem closed_error_releases_lock
    (env : list interference) (p : ptr) (data : void_ptr) (h h' : heap) :
  channel_send env p data h = Done CLOSED_ERROR h' \/
  (exists v, channel_receive env p data h = Done (CLOSED_ERROR, v) h') ->
  lock_at h' p = Some MUTEX_UNLOCKED.
Proof.
  intros [H | [v H]].
  - unfold channel_send in H.
    apply bind_inv in H as (u & h1 & _ & H).
    apply bind_inv in H as ([s|] & h2 & Hwait & H).
    + apply channel_send_wait_early in Hwait
        as (_ & h3 & c3 & b3 & _ & _ & _ & _ & _ & -> & _).
      inversion H; subst. apply lock_at_put.
    + exfalso. revert H. generalize h2.
      assert (R : returns_only (fun r => r = SUCCESS)
                    (let* q := load p buffer in
                     buffer_add q data ;;;
                     pthread_cond_signal p NOT_EMPTY ;;;
                     pthread_mutex_unlock p ;;; ret SUCCESS)).
      { repeat (apply returns_only_bind; intros). now apply returns_only_ret. }
      intros h4 H. apply R in H. discriminate.
  - unfold channel_receive in H.
    apply bind_inv in H as (u & h1 & _ & H).
    apply bind_inv in H as ([s|] & h2 & Hwait & H).
    + apply channel_receive_wait_early in Hwait
        as (_ & h3 & c3 & b3 & _ & _ & _ & _ & _ & -> & _).
      inversion H; subst. apply lock_at_put.
    + exfalso. revert H. generalize h2.
      assert (R : returns_only (fun r => fst r = SUCCESS)
                    (let* q := load p buffer in
                     let* x := buffer_remove q in
                     pthread_cond_signal p NOT_FULL ;;;
                     pthread_mutex_unlock p ;;; ret (SUCCESS, x))).
      { repeat (apply returns_only_bind; intros). now apply returns_only_ret. }
      intros h4 H. apply R in H. discriminate.
Qed.

Lemma closed_error_releases_lock_witness :
  let h := one_channel (shut_struct 10) [5%Z; 6%Z] in
  channel_send [] 1 7%Z h = Done CLOSED_ERROR h /\
  lock_at h 1 = Some MUTEX_UNLOCKED.
Proof.
  intros h.
  assert (Hrun : channel_send [] 1 7%Z h = Done CLOSED_ERROR h) by reflexivity.
  split; [ exact Hrun | ].
  exact (closed_error_releases_lock [] 1 7%Z h h (or_introl Hrun)).
Defined.

(** ** FIFO delivery *)

Lemma enqueued_idle h p c b data :
  idle h p c b -> length (buf_items b) < buf_capacity b ->
  idle (enqueued p c b data h) p
    (set_not_empty c (posted_to WAKE_ONE (not_empty c)))
    (mkBuffer (buf_capacity b) (buf_items b ++ [data])).
Proof.
  intros [Hc Hb Hl Hnf Hne Hsz] Hroom. constructor; simpl; try assumption.
  - apply lookup_insert_eq.
  - apply lookup_insert_eq.
  - now destruct (not_empty c).
  - rewrite length_app. simpl. lia.
Qed.

Lemma dequeued_idle h p c b x rest :
  idle h p c b -> buf_items b = x :: rest ->
  idle (dequeued p c b rest h) p
    (set_not_full c (posted_to WAKE_ONE (not_full c)))
    (mkBuffer (buf_capacity b) rest).
Proof.
  intros [Hc Hb Hl Hnf Hne Hsz] Hitems. constructor; simpl; try assumption.
  - apply lookup_insert_eq.
  - apply lookup_insert_eq.
  - now destruct (not_full c).
  - rewrite Hitems in Hsz. simpl in Hsz. lia.
Qed.

(** Sends that fit all succeed and append to the buffer in send order. *)
Lemma send_each_appends p items :
  forall h c b,
    idle h p c b ->
    length (buf_items b) + length items <= buf_capacity b ->
    exists h' c',
      send_each p items h = Done (repeat SUCCESS (length items)) h' /\
      idle h' p c' (mkBuffer (buf_capacity b) (buf_items b ++ items)).
Proof.
  induction items as [|x items IH]; intros h c b Hi Hfit; simpl in *.
  - exists h, c. split; [ reflexivity | ].
    rewrite app_nil_r. now destruct b.
  - unfold bind at 1.
    rewrite (channel_send_room [] h p c b x Hi) by lia.
    destruct (IH _ _ _ (enqueued_idle h p c b x Hi ltac:(lia)))
      as (h' & c' & Hrun & Hi'); [ simpl; rewrite length_app; simpl; lia | ].
    exists h', c'. unfold bind at 1. rewrite Hrun. split; [ reflexivity | ].
    simpl in Hi'. now rewrite <- app_assoc in Hi'.
Qed.

(** Receives take the buffered items from the front. *)
Lemma receive_times_takes p taken :
  forall h c b rest data,
    idle h p c b -> buf_items b = taken ++ rest ->
    exists h' c',
      receive_times (length taken) p data h =
        Done (map (fun x => (SUCCESS, x)) taken) h' /\
      idle h' p c' (mkBuffer (buf_capacity b) rest).
Proof.
  induction taken as [|x taken IH]; intros h c b rest data Hi Hitems; simpl in *.
  - exists h, c. split; [ reflexivity | ].
    rewrite <- Hitems. now destruct b.
  - unfold bind at 1.
    rewrite (channel_receive_item [] h p c b data x (taken ++ rest) Hi Hitems).
    destruct (IH _ _ _ rest x (dequeued_idle h p c b x _ Hi Hitems) eq_refl)
      as (h' & c' & Hrun & Hi').
    exists h', c'. unfold bind at 1. simpl. rewrite Hrun. now split.
Qed.

(** C8: on an open channel with an empty buffer, sending the items of a
    list no longer than the capacity and then receiving as many times, with
    no other thread at work, makes every send and every receive return
    SUCCESS, and the receives yield the items in the order of the sends;
    the buffer is empty again at the end.  The items need not be distinct. *)
Theorem fifo_delivery
    (h : heap) (p : ptr) (c : channel_t) (b : buffer_t)
    (items : list void_ptr) (data : void_ptr) :
  idle h p c b -> closed c = false -> buf_items b = [] ->
  length items <= buf_capacity b ->
  exists h',
    (let* sent := send_each p items in
     let* received := receive_times (length items) p data in
     ret (sent, received)) h =
    Done (repeat SUCCESS (length items), map (fun x => (SUCCESS, x)) items) h' /\
    contents h' p = Some [].
Proof.
  intros Hi _ Hempty Hfit.
  destruct (send_each_appends p items h c b Hi) as (h1 & c1 & Hsend & Hi1);
    [ rewrite Hempty; simpl; lia | ].
  rewrite Hempty in Hi1. simpl in Hi1.
  destruct (receive_times_takes p items h1 c1 _ [] data Hi1)
    as (h2 & c2 & Hrecv & Hi2); [ simpl; now rewrite app_nil_r | ].
  exists h2. unfold bind at 1. rewrite Hsend. unfold bind at 1. rewrite Hrecv.
  split; [ reflexivity | ]. now rewrite (contents_idle _ _ _ _ Hi2).
Qed.

Lemma fifo_delivery_witness :
  let h := one_channel (open_struct 10) [] in
  idle h 1 (open_struct 10) (mkBuffer 2 []) /\
  exists h',
    (let* sent := send_each 1 [8%Z; 3%Z] in
     let* received := receive_times 2 1 0%Z in
     ret (sent, received)) h =
    Done ([SUCCESS; SUCCESS], [(SUCCESS, 8%Z); (SUCCESS, 3%Z)]) h' /\
    contents h' 1 = Some [].
Proof.
  intros h.
  assert (Hi : idle h 1 (open_struct 10) (mkBuffer 2 []))
    by (apply one_channel_idle; simpl; (reflexivity || lia)).
  split; [ exact Hi | ].
  apply (fifo_delivery h 1 _ _ [8%Z; 3%Z] 0%Z Hi eq_refl eq_refl).
  simpl. lia.
Defined.

(** ** Select *)

(** C2, at a list of three receive requests of which the second is the
    first that is ready: the non-blocking receive of the first request
    reports CHANNEL_EMPTY and the one of the second returns SUCCESS with the
    buffered item, yet [channel_select] returns SUCCESS with the heap, the
    request list and the selected index (99 at the call, not 1) all as they
    were: nothing was received. *)
Theorem channel_select_ignores_ready_entry :
  channel_non_blocking_receive 1 0%Z three_channels =
    Done (CHANNEL_EMPTY, 0%Z) three_channels /\
  (exists h', channel_non_blocking_receive 2 0%Z three_channels =
                Done (SUCCESS, 42%Z) h' /\ contents h' 2 = Some []) /\
  channel_select three_receives 3 99 three_channels =
    Done (SUCCESS, three_receives, 99) three_channels /\
  contents three_channels 2 = Some [42%Z].
Proof.
  split; [ vm_compute; reflexivity | ].
  split; [ eexists; split; vm_compute; reflexivity | ].
  split; reflexivity.
Qed.

(** C10: [channel_select] returns SUCCESS whatever the request list, the
    count and the content of the selected index are; the selected index and
    the request list are as at the call, and so is the heap, hence the
    buffer contents and the closed flag of every listed channel. *)
Theorem channel_select_does_nothing
    (channel_list : list select_t) (channel_count selected_index : nat)
    (h : heap) :
  exists h',
    channel_select channel_list channel_count selected_index h =
      Done (SUCCESS, channel_list, selected_index) h' /\
    h' = h /\
    forall e, In e channel_list ->
      contents h' (sel_channel e) = contents h (sel_channel e) /\
      closed_at h' (sel_channel e) = closed_at h (sel_channel e).
Proof.
  exists h. split; [ reflexivity | ]. split; [ reflexivity | ]. now intros e _.
Qed.

(** * Further properties *)

(** ** Creation and the whole life of a channel *)

Ltac unfold_create :=
  unfold channel_create, malloc, buffer_create, pthread_mutex_init,
    pthread_cond_init.

Lemma channel_create_run h p q junk size :
  channels h !! p = None -> buffers h !! q = None ->
  channel_create (Some p) (Some q) junk size h = Done (Some p) (created p q size h).
Proof.
  intros Hp Hq. unfold_create. unfold bind at 1. rewrite Hp.
  unfold bind at 1. simpl. rewrite Hq. run.
  apply done_eq. unfold created. same_heap.
Qed.

Lemma created_idle h p q size :
  idle (created p q size h) p
    (mkChannel q MUTEX_UNLOCKED (COND []) (COND []) false) (mkBuffer size []).
Proof.
  constructor; simpl; try reflexivity; try apply lookup_insert_eq. lia.
Qed.

(** X1: when both allocations succeed, [channel_create] returns the new
    address; the channel there is open, its mutex is free, its condition
    variables are initialised, and its buffer has the requested capacity and
    no items, whatever the fresh block held before.  Every channel and buffer
    that existed is as it was. *)
Theorem channel_create_makes_idle_channel
    (h : heap) (p q : ptr) (junk : channel_t) (size : nat) :
  channels h !! p = None -> buffers h !! q = None ->
  exists h',
    channel_create (Some p) (Some q) junk size h = Done (Some p) h' /\
    idle h' p (mkChannel q MUTEX_UNLOCKED (COND []) (COND []) false)
      (mkBuffer size []) /\
    closed_at h' p = Some false /\ contents h' p = Some [] /\
    untouched_elsewhere p q h h'.
Proof.
  intros Hp Hq. exists (created p q size h).
  split; [ now apply channel_create_run | ].
  split; [ apply created_idle | ].
  split; [ apply closed_at_put | ].
  split; [ apply (contents_idle _ _ _ _ (created_idle h p q size)) | ].
  split; intros r Hr; simpl; now rewrite lookup_insert_ne.
Qed.

Lemma channel_create_makes_idle_channel_witness :
  let h := one_channel (open_struct 10) [5%Z] in
  channels h !! 2 = None /\ buffers h !! 20 = None /\
  exists h',
    channel_create (Some 2) (Some 20) (shut_struct 7) 3 h = Done (Some 2) h' /\
    contents h' 2 = Some [] /\ contents h' 1 = Some [5%Z].
Proof.
  intros h.
  destruct (channel_create_makes_idle_channel h 2 20 (shut_struct 7) 3 eq_refl eq_refl)
    as (h' & Hrun & _ & _ & Hnew & Hc & Hb).
  split; [ reflexivity | split; [ reflexivity | ] ].
  exists h'. split; [ exact Hrun | split; [ exact Hnew | ] ].
  unfold contents. rewrite (Hc 1) by discriminate.
  change (channels h !! 1) with (Some (open_struct 10)). simpl.
  rewrite (Hb 10) by discriminate. reflexivity.
Defined.

(** X2: when an allocation fails, [channel_create] returns NULL and the
    heap is the one of the call: if the buffer could not be made, the struct
    that had been allocated for the channel is freed again. *)
Theorem channel_create_failure_leaves_heap
    (h : heap) (p : ptr) (buffer_mem : option ptr) (junk : channel_t)
    (size : nat) :
  channels h !! p = None ->
  channel_create None buffer_mem junk size h = Done None h /\
  channel_create (Some p) None junk size h = Done None h.
Proof.
  intros Hp. split; [ reflexivity | ].
  unfold_create. unfold bind at 1. rewrite Hp. run.
  apply done_eq, heap_eq; simpl; [ | reflexivity.. ].
  rewrite insert_insert_eq, delete_insert_eq. now apply delete_id.
Qed.

Lemma channel_create_failure_leaves_heap_witness :
  let h := one_channel (open_struct 10) [5%Z] in
  channels h !! 2 = None /\
  channel_create (Some 2) None (shut_struct 7) 3 h = Done None h.
Proof.
  intros h. split; [ reflexivity | ].
  exact (proj2 (channel_create_failure_leaves_heap h 2 None (shut_struct 7) 3 eq_refl)).
Defined.

Lemma untouched_elsewhere_refl p q h : untouched_elsewhere p q h h.
Proof. now split. Qed.

Lemma untouched_elsewhere_trans p q h1 h2 h3 :
  untouched_elsewhere p q h1 h2 -> untouched_elsewhere p q h2 h3 ->
  untouched_elsewhere p q h1 h3.
Proof.
  intros [Hc Hb] [Hc' Hb']. split; intros r Hr.
  - now rewrite Hc', Hc.
  - now rewrite Hb', Hb.
Qed.

Lemma untouched_elsewhere_put p q c v h :
  untouched_elsewhere p q h (put_channel p c (put_buffer q v h)).
Proof. split; intros r Hr; simpl; now rewrite lookup_insert_ne. Qed.

Lemma untouched_elsewhere_put_channel p q c h :
  untouched_elsewhere p q h (put_channel p c h).
Proof.
  split; intros r Hr; simpl; [ now rewrite lookup_insert_ne | reflexivity ].
Qed.

(** Sends that fit, with what they keep. *)
Lemma send_each_run p items :
  forall h c b,
    idle h p c b ->
    length (buf_items b) + length items <= buf_capacity b ->
    exists h' c',
      send_each p items h = Done (repeat SUCCESS (length items)) h' /\
      idle h' p c' (mkBuffer (buf_capacity b) (buf_items b ++ items)) /\
      buffer c' = buffer c /\ closed c' = closed c /\
      untouched_elsewhere p (buffer c) h h' /\
      mutexes h' = mutexes h /\ conds h' = conds h.
Proof.
  induction items as [|x items IH]; intros h c b Hi Hfit; simpl in *.
  - exists h, c. split; [ reflexivity | ].
    rewrite app_nil_r. split; [ now destruct b | ].
    repeat split; reflexivity.
  - unfold bind at 1.
    rewrite (channel_send_room [] h p c b x Hi) by lia.
    destruct (IH _ _ _ (enqueued_idle h p c b x Hi ltac:(lia)))
      as (h' & c' & Hrun & Hi' & Hbuf & Hcl & Hframe & Hm & Hv);
      [ simpl; rewrite length_app; simpl; lia | ].
    exists h', c'. unfold bind at 1. rewrite Hrun. split; [ reflexivity | ].
    simpl in *. rewrite <- app_assoc in Hi'.
    split; [ assumption | ]. split; [ assumption | ]. split; [ assumption | ].
    split; [ | now split ].
    eapply untouched_elsewhere_trans; [ | exact Hframe ].
    apply untouched_elsewhere_put.
Qed.

(** Receives of buffered items, with what they keep. *)
Lemma receive_times_run p taken :
  forall h c b rest data,
    idle h p c b -> buf_items b = taken ++ rest ->
    exists h' c',
      receive_times (length taken) p data h =
        Done (map (fun x => (SUCCESS, x)) taken) h' /\
      idle h' p c' (mkBuffer (buf_capacity b) rest) /\
      buffer c' = buffer c /\ closed c' = closed c /\
      untouched_elsewhere p (buffer c) h h' /\
      mutexes h' = mutexes h /\ conds h' = conds h.
Proof.
  induction taken as [|x taken IH]; intros h c b rest data Hi Hitems; simpl in *.
  - exists h, c. split; [ reflexivity | ].
    rewrite <- Hitems. split; [ now destruct b | ].
    repeat split; reflexivity.
  - unfold bind at 1.
    rewrite (channel_receive_item [] h p c b data x (taken ++ rest) Hi Hitems).
    destruct (IH _ _ _ rest x (dequeued_idle h p c b x _ Hi Hitems) eq_refl)
      as (h' & c' & Hrun & Hi' & Hbuf & Hcl & Hframe & Hm & Hv).
    exists h', c'. unfold bind at 1. simpl. rewrite Hrun.
    split; [ reflexivity | ]. simpl in *.
    split; [ assumption | ]. split; [ assumption | ]. split; [ assumption | ].
    split; [ | now split ].
    eapply untouched_elsewhere_trans; [ | exact Hframe ].
    apply untouched_elsewhere_put.
Qed.

(** X3: a channel that is created, used to send a list of items no longer
    than its capacity and to receive them back, closed and destroyed, with no
    other thread at work: every call returns SUCCESS, the items come back in
    the order of the sends, and the heap at the end is the heap before the
    creation; nothing stays allocated. *)
Theorem whole_life_leaves_no_trace
    (h : heap) (p q : ptr) (junk : channel_t) (size : nat)
    (items : list void_ptr) (data : void_ptr) :
  channels h !! p = None -> buffers h !! q = None ->
  length items <= size ->
  whole_life (Some p) (Some q) junk size items data h =
  Done (Some (repeat SUCCESS (length items),
              map (fun x => (SUCCESS, x)) items, SUCCESS, SUCCESS)) h.
Proof.
  intros Hp Hq Hfit. unfold whole_life. unfold bind at 1.
  rewrite (channel_create_run h p q junk size Hp Hq).
  destruct (send_each_run p items _ _ _ (created_idle h p q size))
    as (h1 & c1 & Hsend & Hi1 & Hb1 & Hcl1 & Hf1 & Hm1 & Hv1); [ simpl; lia | ].
  simpl in Hi1, Hb1, Hcl1, Hf1, Hm1, Hv1.
  destruct (receive_times_run p items h1 c1 _ [] data Hi1)
    as (h2 & c2 & Hrecv & Hi2 & Hb2 & Hcl2 & Hf2 & Hm2 & Hv2);
    [ simpl; now rewrite app_nil_r | ].
  simpl in Hi2. rewrite Hb1 in Hf2.
  unfold bind at 1. rewrite Hsend. unfold bind at 1. rewrite Hrecv.
  unfold bind at 1.
  rewrite (channel_close_open h2 p c2 _ Hi2) by congruence.
  unfold bind at 1.
  rewrite (channel_destroy_closed _ p (close_struct c2) (mkBuffer size [])
             (close_struct_idle h2 p c2 _ Hi2) eq_refl).
  unfold ret. apply done_eq.
  assert (Hframe : untouched_elsewhere p q h h2).
  { eapply untouched_elsewhere_trans; [ | exact Hf2 ].
    eapply untouched_elsewhere_trans; [ | exact Hf1 ].
    split; intros r Hr; simpl; now rewrite lookup_insert_ne. }
  destruct Hframe as [Hc Hb].
  apply heap_eq; simpl; [ apply map_eq; intros r.. | lia | lia ].
  - destruct (decide (r = p)) as [->|Hr].
    + now rewrite lookup_delete_eq.
    + rewrite lookup_delete_ne, lookup_insert_ne by congruence. now apply Hc.
  - rewrite Hb2, Hb1.
    destruct (decide (r = q)) as [->|Hr].
    + now rewrite lookup_delete_eq.
    + rewrite lookup_delete_ne by congruence. now apply Hb.
Qed.

Lemma whole_life_leaves_no_trace_witness :
  let h := one_channel (open_struct 10) [5%Z] in
  channels h !! 2 = None /\ buffers h !! 20 = None /\
  whole_life (Some 2) (Some 20) (shut_struct 7) 2 [8%Z; 3%Z] 0%Z h =
  Done (Some ([SUCCESS; SUCCESS], [(SUCCESS, 8%Z); (SUCCESS, 3%Z)],
              SUCCESS, SUCCESS)) h.
Proof.
  intros h. split; [ reflexivity | split; [ reflexivity | ] ].
  apply (whole_life_leaves_no_trace h 2 20 (shut_struct 7) 2 [8%Z; 3%Z] 0%Z
           eq_refl eq_refl).
  simpl. lia.
Defined.

(** ** Calls on an idle channel with no other thread at work *)

Lemma perform_idle op h p c b :
  idle h p c b -> sequential_outcome h p c b op (perform op [] p h).
Proof.
  intros Hi. pose proof Hi as [Hc Hb Hl Hnf Hne Hsz].
  destruct op as [data|data|data|data| | ]; unfold perform.
  - destruct (Nat.eq_dec (length (buf_items b)) (buf_capacity b)) as [Hfull|Hroom].
    + destruct (closed c) eqn:Hcl.
      * rewrite (channel_send_closed_full [] h p c b data Hi Hcl Hfull).
        now apply seq_failed.
      * rewrite (channel_send_open_full h p c b data Hi Hcl Hfull).
        now apply seq_asleep.
    + rewrite (channel_send_room [] h p c b data Hi) by lia.
      apply seq_enqueued; [ discriminate | lia ].
  - destruct (buf_items b) as [|x rest] eqn:Hitems.
    + destruct (closed c) eqn:Hcl.
      * unfold bind.
        rewrite (channel_receive_closed_empty [] h p c b data Hi Hcl Hitems).
        now apply seq_failed.
      * unfold bind.
        rewrite (channel_receive_open_empty h p c b data Hi Hcl Hitems).
        now apply seq_asleep.
    + unfold bind.
      rewrite (channel_receive_item [] h p c b data x rest Hi Hitems).
      now apply (seq_dequeued h p c b _ x rest).
  - destruct (closed c) eqn:Hcl.
    + rewrite (channel_non_blocking_send_closed h p c b data Hi Hcl).
      now apply seq_failed.
    + destruct (Nat.eq_dec (length (buf_items b)) (buf_capacity b)) as [Hfull|Hroom].
      * rewrite (channel_non_blocking_send_full h p c b data Hi Hcl Hfull).
        now apply seq_failed.
      * rewrite (channel_non_blocking_send_room h p c b data Hi Hcl) by lia.
        apply seq_enqueued; [ discriminate | lia ].
  - unfold bind. destruct (closed c) eqn:Hcl.
    + rewrite (channel_non_blocking_receive_closed h p c b data Hi Hcl).
      now apply seq_failed.
    + destruct (buf_items b) as [|x rest] eqn:Hitems.
      * rewrite (channel_non_blocking_receive_empty h p c b data Hi Hcl Hitems).
        now apply seq_failed.
      * rewrite (channel_non_blocking_receive_item h p c b data x rest Hi Hcl Hitems).
        now apply (seq_dequeued h p c b _ x rest).
  - destruct (closed c) eqn:Hcl.
    + rewrite (channel_close_closed h p c b Hi Hcl). now apply seq_failed.
    + rewrite (channel_close_open h p c b Hi Hcl). now apply seq_closed.
  - destruct (closed c) eqn:Hcl.
    + rewrite (channel_destroy_closed h p c b Hi Hcl). now apply seq_destroyed.
    + rewrite (channel_destroy_open h p c Hc Hcl). now apply seq_failed.
Qed.

(** X4: on an idle channel, with no other thread at work, every call other
    than a destroy that returns leaves the channel idle: the mutex is free
    again, the condition variables are intact, the channel still points to
    the same buffer, the capacity is what it was and the buffer holds no more
    than that. *)
Theorem returning_call_keeps_channel_idle
    (op : operation) (h : heap) (p : ptr) (c : channel_t) (b : buffer_t)
    (s : channel_status) (h' : heap) :
  idle h p c b -> op <> Destroy ->
  perform op [] p h = Done s h' ->
  exists c' b',
    idle h' p c' b' /\ buffer c' = buffer c /\
    buf_capacity b' = buf_capacity b.
Proof.
  intros Hi Hop Hrun. pose proof (perform_idle op h p c b Hi) as Hcase.
  rewrite Hrun in Hcase. inversion Hcase; subst.
  - now exists c, b.
  - eexists _, _. split; [ now apply enqueued_idle | now split ].
  - eexists _, _. split; [ now apply (dequeued_idle h p c b x rest) | now split ].
  - exists (close_struct c), b.
    split; [ now apply close_struct_idle | now split ].
  - congruence.
Qed.

Lemma returning_call_keeps_channel_idle_witness :
  let h := one_channel (open_struct 10) [5%Z] in
  idle h 1 (open_struct 10) (mkBuffer 2 [5%Z]) /\
  exists c' b',
    idle (enqueued 1 (open_struct 10) (mkBuffer 2 [5%Z]) 6%Z h) 1 c' b' /\
    buffer c' = 10 /\ buf_capacity b' = 2.
Proof.
  intros h.
  assert (Hi : idle h 1 (open_struct 10) (mkBuffer 2 [5%Z]))
    by (apply one_channel_idle; simpl; (reflexivity || lia)).
  split; [ exact Hi | ].
  apply (returning_call_keeps_channel_idle (Send 6%Z) h 1 _ _ SUCCESS _ Hi);
    [ discriminate | reflexivity ].
Defined.

(** X5: on an idle channel, with no other thread at work, no call runs into
    undefined behaviour: the buffer is never asked to add to a full store or
    to remove from an empty one, and no mutex or condition variable is
    misused.  Only the blocking send and receive can sleep, and only on an
    open channel; the non-blocking calls, close and destroy always return. *)
Theorem idle_channel_calls_are_safe
    (op : operation) (h : heap) (p : ptr) (c : channel_t) (b : buffer_t) :
  idle h p c b ->
  perform op [] p h <> Fault /\
  (forall h', perform op [] p h = Blocked h' ->
     blocking op = true /\ closed c = false /\ h' = h) /\
  (blocking op = false \/ closed c = true ->
   exists s h', perform op [] p h = Done s h').
Proof.
  intros Hi. pose proof (perform_idle op h p c b Hi) as Hcase.
  split; [ | split ].
  - intros Hf. rewrite Hf in Hcase. inversion Hcase.
  - intros h' Hb. rewrite Hb in Hcase. inversion Hcase; subst. now repeat split.
  - intros Hor. inversion Hcase; subst; eauto.
    destruct Hor; congruence.
Qed.

Lemma idle_channel_calls_are_safe_witness :
  let h := one_channel (open_struct 10) [5%Z; 6%Z] in
  idle h 1 (open_struct 10) (mkBuffer 2 [5%Z; 6%Z]) /\
  perform (Send 7%Z) [] 1 h <> Fault /\
  perform (Send 7%Z) [] 1 h = Blocked h.
Proof.
  intros h.
  assert (Hi : idle h 1 (open_struct 10) (mkBuffer 2 [5%Z; 6%Z]))
    by (apply one_channel_idle; simpl; (reflexivity || lia)).
  split; [ exact Hi | ].
  split; [ | reflexivity ].
  exact (proj1 (idle_channel_calls_are_safe (Send 7%Z) h 1 _ _ Hi)).
Defined.

(** X6: on an idle channel, with no other thread at work, no call reopens a
    closed channel: after any call other than a destroy that returns, a
    channel that was closed is still closed. *)
Theorem closed_stays_closed
    (op : operation) (h : heap) (p : ptr) (c : channel_t) (b : buffer_t)
    (s : channel_status) (h' : heap) :
  idle h p c b -> closed c = true -> op <> Destroy ->
  perform op [] p h = Done s h' ->
  closed_at h' p = Some true.
Proof.
  intros Hi Hshut Hop Hrun. pose proof (perform_idle op h p c b Hi) as Hcase.
  rewrite Hrun in Hcase. inversion Hcase; subst.
  - unfold closed_at. destruct Hi as [Hc _ _ _ _ _]. rewrite Hc. simpl.
    now rewrite Hshut.
  - unfold enqueued. rewrite closed_at_put. simpl. now rewrite Hshut.
  - unfold dequeued. rewrite closed_at_put. simpl. now rewrite Hshut.
  - apply closed_at_put.
  - congruence.
Qed.

Lemma closed_stays_closed_witness :
  let h := one_channel (shut_struct 10) [5%Z] in
  idle h 1 (shut_struct 10) (mkBuffer 2 [5%Z]) /\
  perform (Receive 0%Z) [] 1 h =
    Done SUCCESS (dequeued 1 (shut_struct 10) (mkBuffer 2 [5%Z]) [] h) /\
  closed_at (dequeued 1 (shut_struct 10) (mkBuffer 2 [5%Z]) [] h) 1 = Some true.
Proof.
  intros h.
  assert (Hi : idle h 1 (shut_struct 10) (mkBuffer 2 [5%Z]))
    by (apply one_channel_idle; simpl; (reflexivity || lia)).
  assert (Hrun : perform (Receive 0%Z) [] 1 h =
                 Done SUCCESS (dequeued 1 (shut_struct 10) (mkBuffer 2 [5%Z]) [] h))
    by reflexivity.
  split; [ exact Hi | split; [ exact Hrun | ] ].
  apply (closed_stays_closed (Receive 0%Z) h 1 _ _ SUCCESS _ Hi eq_refl);
    [ discriminate | exact Hrun ].
Defined.

(** X7: on an idle channel, with no other thread at work, a call touches
    nothing but the struct of its channel and the buffer of that channel:
    every other channel struct and every other buffer of the heap is at the
    return what it was at the call. *)
Theorem call_touches_one_channel
    (op : operation) (h : heap) (p : ptr) (c : channel_t) (b : buffer_t)
    (s : channel_status) (h' : heap) :
  idle h p c b ->
  perform op [] p h = Done s h' ->
  untouched_elsewhere p (buffer c) h h'.
Proof.
  intros Hi Hrun. pose proof (perform_idle op h p c b Hi) as Hcase.
  rewrite Hrun in Hcase. inversion Hcase; subst.
  - apply untouched_elsewhere_refl.
  - apply untouched_elsewhere_put.
  - apply untouched_elsewhere_put.
  - apply untouched_elsewhere_put_channel.
  - split; intros r Hr; simpl; now rewrite lookup_delete_ne.
Qed.

Lemma call_touches_one_channel_witness :
  idle three_channels 2 (open_struct 20) (mkBuffer 2 [42%Z]) /\
  exists h',
    perform (Receive 0%Z) [] 2 three_channels = Done SUCCESS h' /\
    untouched_elsewhere 2 20 three_channels h'.
Proof.
  assert (Hi : idle three_channels 2 (open_struct 20) (mkBuffer 2 [42%Z]))
    by (constructor; simpl; (reflexivity || lia)).
  split; [ exact Hi | ].
  exists (dequeued 2 (open_struct 20) (mkBuffer 2 [42%Z]) [] three_channels).
  split; [ reflexivity | ].
  exact (call_touches_one_channel (Receive 0%Z) three_channels 2 _ _ SUCCESS _
           Hi eq_refl).
Defined.

(** ** Calls under any interference *)

Lemma ends_with_bind {A B} (Q : heap -> Prop) (m : M A) (k : A -> M B) :
  (forall a, ends_with Q (k a)) -> ends_with Q (bind m k).
Proof.
  intros Hk h r h' H. apply bind_inv in H as (a & h1 & _ & H).
  now apply (Hk a h1 r h').
Qed.

Lemma ends_with_map {A B} (Q : heap -> Prop) (m : M A) (f : A -> B) :
  ends_with Q m -> ends_with Q (let* r := m in ret (f r)).
Proof.
  intros Hm h r h' H. apply bind_inv in H as (a & h1 & Ha & H).
  inversion H; subst. now apply (Hm h a h').
Qed.

Lemma ends_with_unlock {A} p (a : A) :
  ends_with (fun h => lock_at h p = Some MUTEX_UNLOCKED)
    (pthread_mutex_unlock p ;;; ret a).
Proof.
  intros h r h' H. apply bind_inv in H as (u & h1 & Hu & H).
  apply pthread_mutex_unlock_inv in Hu as (c & _ & _ & ->).
  inversion H; subst. apply lock_at_put.
Qed.

Ltac ends_unlocked :=
  repeat first
    [ apply ends_with_unlock
    | apply ends_with_bind; intros
    | match goal with
      | |- ends_with _ (if ?c then _ else _) => destruct c
      end ].

Lemma channel_send_ends_unlocked env p data :
  ends_with (fun h => lock_at h p = Some MUTEX_UNLOCKED) (channel_send env p data).
Proof.
  intros h r h' H. unfold channel_send in H.
  apply bind_inv in H as (u & h1 & _ & H).
  apply bind_inv in H as ([s|] & h2 & Hwait & H).
  - apply channel_send_wait_early in Hwait
      as (_ & h3 & c3 & b3 & _ & _ & _ & _ & _ & -> & _).
    inversion H; subst. apply lock_at_put.
  - revert H. generalize h2 r h'. change (ends_with
      (fun h => lock_at h p = Some MUTEX_UNLOCKED)
      (let* q := load p buffer in
       buffer_add q data ;;;
       pthread_cond_signal p NOT_EMPTY ;;;
       pthread_mutex_unlock p ;;; ret SUCCESS)).
    ends_unlocked.
Qed.

Lemma channel_receive_ends_unlocked env p data :
  ends_with (fun h => lock_at h p = Some MUTEX_UNLOCKED) (channel_receive env p data).
Proof.
  intros h r h' H. unfold channel_receive in H.
  apply bind_inv in H as (u & h1 & _ & H).
  apply bind_inv in H as ([s|] & h2 & Hwait & H).
  - apply channel_receive_wait_early in Hwait
      as (_ & h3 & c3 & b3 & _ & _ & _ & _ & _ & -> & _).
    inversion H; subst. apply lock_at_put.
  - revert H. generalize h2 r h'. change (ends_with
      (fun h => lock_at h p = Some MUTEX_UNLOCKED)
      (let* q := load p buffer in
       let* x := buffer_remove q in
       pthread_cond_signal p NOT_FULL ;;;
       pthread_mutex_unlock p ;;; ret (SUCCESS, x))).
    ends_unlocked.
Qed.

(** X8: whenever a send, a receive, one of their non-blocking variants or a
    close returns, with whatever status and whatever the other threads did
    while it waited, the channel's mutex is released at the return: no
    return path keeps the lock. *)
Theorem every_return_releases_lock
    (op : operation) (env : list interference) (p : ptr) (h : heap)
    (s : channel_status) (h' : heap) :
  op <> Destroy ->
  perform op env p h = Done s h' ->
  lock_at h' p = Some MUTEX_UNLOCKED.
Proof.
  intros Hop. revert h s h'.
  change (ends_with (fun h => lock_at h p = Some MUTEX_UNLOCKED) (perform op env p)).
  destruct op as [data|data|data|data| | ]; unfold perform.
  - apply channel_send_ends_unlocked.
  - apply ends_with_map, channel_receive_ends_unlocked.
  - unfold channel_non_blocking_send. ends_unlocked.
  - apply ends_with_map. unfold channel_non_blocking_receive. ends_unlocked.
  - unfold channel_close. ends_unlocked.
  - congruence.
Qed.

Lemma every_return_releases_lock_witness :
  let h := one_channel (open_struct 10) [5%Z; 6%Z] in
  let h' := dequeued 1 (open_struct 10) (mkBuffer 2 [5%Z; 6%Z]) [6%Z] h in
  Receive 0%Z <> Destroy /\
  perform (Receive 0%Z) [] 1 h = Done SUCCESS h' /\
  lock_at h' 1 = Some MUTEX_UNLOCKED.
Proof.
  intros h h'.
  assert (Hop : Receive 0%Z <> Destroy) by discriminate.
  assert (Hrun : perform (Receive 0%Z) [] 1 h = Done SUCCESS h') by reflexivity.
  split; [ exact Hop | split; [ exact Hrun | ] ].
  exact (every_return_releases_lock (Receive 0%Z) [] 1 h SUCCESS h' Hop Hrun).
Defined.

Lemma send_tail_appends p data h2 s h' :
  (let* q := load p buffer in
   buffer_add q data ;;;
   pthread_cond_signal p NOT_EMPTY ;;;
   pthread_mutex_unlock p ;;; ret SUCCESS) h2 = Done s h' ->
  s = SUCCESS /\ exists items, contents h' p = Some (items ++ [data]).
Proof.
  crunch.
  repeat match goal with
         | E : Some _ = Some _ |- _ => inversion E; subst; clear E
         end.
  split; [ reflexivity | ]. exists (buf_items b).
  apply (contents_put p _ _ (mkBuffer (buf_capacity b) (buf_items b ++ [data]))).
  simpl. apply lookup_insert_eq.
Qed.

(** X9: whatever the other threads do while it waits, a blocking send
    returns only CLOSED_ERROR or SUCCESS.  When it returns CLOSED_ERROR the
    channel is closed and its buffer is full at the return, so the send never
    gives up on a channel that has room; when it returns SUCCESS the item it
    was given is the newest item of the buffer at the return. *)
Theorem channel_send_outcomes
    (env : list interference) (p : ptr) (data : void_ptr) (h : heap)
    (s : channel_status) (h' : heap) :
  channel_send env p data h = Done s h' ->
  (s = CLOSED_ERROR /\ closed_at h' p = Some true /\
   exists c' b',
     channels h' !! p = Some c' /\ buffers h' !! buffer c' = Some b' /\
     length (buf_items b') = buf_capacity b') \/
  (s = SUCCESS /\ exists items, contents h' p = Some (items ++ [data])).
Proof.
  intros H. unfold channel_send in H.
  apply bind_inv in H as (u & h1 & _ & H).
  apply bind_inv in H as ([s0|] & h2 & Hwait & H).
  - left. inversion H; subst.
    apply channel_send_wait_early in Hwait
      as (-> & h3 & c3 & b3 & Hc3 & Hb3 & Hl3 & Hcl3 & Hfull & -> & _).
    split; [ reflexivity | ].
    split; [ rewrite closed_at_put; simpl; now rewrite Hcl3 | ].
    exists (set_lock c3 MUTEX_UNLOCKED), b3. simpl.
    split; [ apply lookup_insert_eq | now split ].
  - right. now apply (send_tail_appends p data h2).
Qed.

Lemma channel_send_outcomes_witness :
  let h := one_channel (open_struct 10) [5%Z; 6%Z] in
  exists h',
    channel_send [other_thread (channel_receive [] 1 0%Z)] 1 7%Z h =
      Done SUCCESS h' /\
    exists items, contents h' 1 = Some (items ++ [7%Z]).
Proof.
  intros h. eexists.
  assert (Hrun : channel_send [other_thread (channel_receive [] 1 0%Z)] 1 7%Z h =
                 Done SUCCESS
                   (enqueued 1 (set_not_full (open_struct 10) (COND [WAKE_ONE]))
                      (mkBuffer 2 [6%Z]) 7%Z
                      (dequeued 1 (open_struct 10) (mkBuffer 2 [5%Z; 6%Z]) [6%Z] h)))
    by (vm_compute; reflexivity).
  split; [ exact Hrun | ].
  destruct (channel_send_outcomes _ _ _ _ _ _ Hrun) as [[Hs _] | [_ Hitems]];
    [ discriminate Hs | exact Hitems ].
Defined.

(** ** Sleeping and waking *)

Lemma channel_send_woken f env h p c b data :
  idle h p c b -> closed c = false ->
  length (buf_items b) = buf_capacity b ->
  channel_send (f :: env) p data h = channel_send env p data (f h).
Proof.
  intros Hi Hopen Hstate.
  assert (Hrelock :
    put_channel p (set_lock (set_lock c MUTEX_LOCKED) MUTEX_UNLOCKED)
      (put_channel p (set_lock c MUTEX_LOCKED) h) = h)
    by (destruct Hi; now apply relock_id).
  pose proof Hi as [Hc Hb Hl Hnf Hne Hsz].
  unfold channel_send at 1. unfold bind at 1.
  rewrite (lock_idle h p c b Hi). unfold bind at 1.
  simpl channel_send_wait. run.
  rewrite (proj2 (Nat.eqb_eq _ _) Hstate). run. rewrite Hopen. run.
  destruct (not_full c); try discriminate. run.
  rewrite Hrelock.
  destruct (channels (f h) !! p) as [c'|] eqn:Hc'; simpl; [ | reflexivity ].
  destruct (lock c'); simpl; rewrite ?Hc'; reflexivity.
Qed.

Lemma channel_receive_woken f env h p c b data :
  idle h p c b -> closed c = false -> buf_items b = [] ->
  channel_receive (f :: env) p data h = channel_receive env p data (f h).
Proof.
  intros Hi Hopen Hstate.
  assert (Hrelock :
    put_channel p (set_lock (set_lock c MUTEX_LOCKED) MUTEX_UNLOCKED)
      (put_channel p (set_lock c MUTEX_LOCKED) h) = h)
    by (destruct Hi; now apply relock_id).
  pose proof Hi as [Hc Hb Hl Hnf Hne Hsz].
  unfold channel_receive at 1. unfold bind at 1.
  rewrite (lock_idle h p c b Hi). unfold bind at 1.
  simpl channel_receive_wait. run.
  rewrite Hstate. run. rewrite Hopen. run.
  destruct (not_empty c); try discriminate. run.
  rewrite Hrelock.
  destruct (channels (f h) !! p) as [c'|] eqn:Hc'; simpl; [ | reflexivity ].
  destruct (lock c'); simpl; rewrite ?Hc'; reflexivity.
Qed.

(** X10: a blocking send that finds an open channel full sleeps, and when it
    is woken it starts over: on the heap [f h] that the other threads leave,
    it does exactly what a fresh send on that heap does, with the wake-ups
    that remain.  A blocking receive on an open empty channel does the same.
    In particular a wake-up after which nothing has changed sends the call
    back to sleep. *)
Theorem woken_call_starts_over
    (f : interference) (env : list interference) (h : heap) (p : ptr)
    (c : channel_t) (b : buffer_t) (data : void_ptr) :
  idle h p c b -> closed c = false ->
  (length (buf_items b) = buf_capacity b ->
   channel_send (f :: env) p data h = channel_send env p data (f h)) /\
  (buf_items b = [] ->
   channel_receive (f :: env) p data h = channel_receive env p data (f h)).
Proof.
  intros Hi Hopen. split; intros Hstate.
  - now apply (channel_send_woken f env h p c b).
  - now apply (channel_receive_woken f env h p c b).
Qed.

Lemma woken_call_starts_over_witness :
  let h := one_channel (open_struct 10) [5%Z; 6%Z] in
  idle h 1 (open_struct 10) (mkBuffer 2 [5%Z; 6%Z]) /\
  channel_send [fun h => h] 1 7%Z h = channel_send [] 1 7%Z h.
Proof.
  intros h.
  assert (Hi : idle h 1 (open_struct 10) (mkBuffer 2 [5%Z; 6%Z]))
    by (apply one_channel_idle; simpl; (reflexivity || lia)).
  split; [ exact Hi | ].
  exact (proj1 (woken_call_starts_over (fun h => h) [] h 1 _ _ 7%Z Hi eq_refl)
           eq_refl).
Defined.




(** ** Blocking and non-blocking calls side by side *)

(** X12: on an idle channel, whenever the non-blocking send or receive
    returns SUCCESS, the blocking call returns SUCCESS too, with the same
    item and the same heap, whatever wake-ups are in store; and on an open
    channel, with no other thread at work, whenever the blocking call
    returns, the non-blocking call returns the same. *)
Theorem blocking_agrees_with_non_blocking
    (env : list interference) (h : heap) (p : ptr) (c : channel_t)
    (b : buffer_t) (data : void_ptr) :
  idle h p c b ->
  (forall h', channel_non_blocking_send p data h = Done SUCCESS h' ->
              channel_send env p data h = Done SUCCESS h') /\
  (forall x h', channel_non_blocking_receive p data h = Done (SUCCESS, x) h' ->
                channel_receive env p data h = Done (SUCCESS, x) h') /\
  (closed c = false ->
   forall s h', channel_send [] p data h = Done s h' ->
                channel_non_blocking_send p data h = Done s h') /\
  (closed c = false ->
   forall r h', channel_receive [] p data h = Done r h' ->
                channel_non_blocking_receive p data h = Done r h').
Proof.
  intros Hi. pose proof Hi as [Hc Hb Hl Hnf Hne Hsz].
  split; [ | split; [ | split ] ].
  - intros h' H. destruct (closed c) eqn:Hcl.
    + rewrite (channel_non_blocking_send_closed h p c b data Hi Hcl) in H.
      discriminate.
    + destruct (Nat.eq_dec (length (buf_items b)) (buf_capacity b)) as [Hfull|Hroom].
      * rewrite (channel_non_blocking_send_full h p c b data Hi Hcl Hfull) in H.
        discriminate.
      * rewrite (channel_non_blocking_send_room h p c b data Hi Hcl) in H by lia.
        rewrite <- H. apply (channel_send_room env h p c b data Hi). lia.
  - intros x h' H. destruct (closed c) eqn:Hcl.
    + rewrite (channel_non_blocking_receive_closed h p c b data Hi Hcl) in H.
      discriminate.
    + destruct (buf_items b) as [|y rest] eqn:Hitems.
      * rewrite (channel_non_blocking_receive_empty h p c b data Hi Hcl Hitems) in H.
        discriminate.
      * rewrite (channel_non_blocking_receive_item h p c b data y rest Hi Hcl Hitems) in H.
        rewrite <- H. now apply (channel_receive_item env h p c b data y rest).
  - intros Hcl s h' H.
    destruct (Nat.eq_dec (length (buf_items b)) (buf_capacity b)) as [Hfull|Hroom].
    + rewrite (channel_send_open_full h p c b data Hi Hcl Hfull) in H. discriminate.
    + rewrite (channel_send_room [] h p c b data Hi) in H by lia.
      rewrite <- H. apply (channel_non_blocking_send_room h p c b data Hi Hcl). lia.
  - intros Hcl r h' H. destruct (buf_items b) as [|y rest] eqn:Hitems.
    + rewrite (channel_receive_open_empty h p c b data Hi Hcl Hitems) in H.
      discriminate.
    + rewrite (channel_receive_item [] h p c b data y rest Hi Hitems) in H.
      rewrite <- H.
      now apply (channel_non_blocking_receive_item h p c b data y rest).
Qed.

Lemma blocking_agrees_with_non_blocking_witness :
  let h := one_channel (open_struct 10) [5%Z] in
  let h' := enqueued 1 (open_struct 10) (mkBuffer 2 [5%Z]) 6%Z h in
  idle h 1 (open_struct 10) (mkBuffer 2 [5%Z]) /\
  channel_non_blocking_send 1 6%Z h = Done SUCCESS h' /\
  channel_send [] 1 6%Z h = Done SUCCESS h'.
Proof.
  intros h h'.
  assert (Hi : idle h 1 (open_struct 10) (mkBuffer 2 [5%Z]))
    by (apply one_channel_idle; simpl; (reflexivity || lia)).
  assert (Hnb : channel_non_blocking_send 1 6%Z h = Done SUCCESS h') by reflexivity.
  split; [ exact Hi | split; [ exact Hnb | ] ].
  exact (proj1 (blocking_agrees_with_non_blocking [] h 1 _ _ 6%Z Hi) h' Hnb).
Defined.

(** ** Filling and draining *)

(** X13: once sends have filled an open channel to its capacity, with no
    other thread at work, the buffer holds the old items followed by the sent
    ones, the next non-blocking send reports CHANNEL_FULL and leaves the
    heap alone, and the next blocking send sleeps. *)
Theorem filled_channel_refuses
    (h : heap) (p : ptr) (c : channel_t) (b : buffer_t)
    (items : list void_ptr) (data : void_ptr) :
  idle h p c b -> closed c = false ->
  length (buf_items b) + length items = buf_capacity b ->
  exists h',
    send_each p items h = Done (repeat SUCCESS (length items)) h' /\
    contents h' p = Some (buf_items b ++ items) /\
    channel_non_blocking_send p data h' = Done CHANNEL_FULL h' /\
    channel_send [] p data h' = Blocked h'.
Proof.
  intros Hi Hopen Hfill.
  destruct (send_each_run p items h c b Hi)
    as (h' & c' & Hrun & Hi' & _ & Hcl & _);
    [ lia | ].
  rewrite Hopen in Hcl.
  assert (Hfull : length (buf_items (mkBuffer (buf_capacity b) (buf_items b ++ items)))
                  = buf_capacity (mkBuffer (buf_capacity b) (buf_items b ++ items)))
    by (simpl; rewrite length_app; lia).
  exists h'. split; [ exact Hrun | ].
  split; [ now rewrite (contents_idle _ _ _ _ Hi') | ].
  split.
  - now apply (channel_non_blocking_send_full h' p c' _ data Hi').
  - now apply (channel_send_open_full h' p c' _ data Hi').
Qed.

Lemma filled_channel_refuses_witness :
  let h := one_channel (open_struct 10) [5%Z] in
  idle h 1 (open_struct 10) (mkBuffer 2 [5%Z]) /\
  exists h',
    send_each 1 [6%Z] h = Done [SUCCESS] h' /\
    contents h' 1 = Some [5%Z; 6%Z] /\
    channel_non_blocking_send 1 7%Z h' = Done CHANNEL_FULL h' /\
    channel_send [] 1 7%Z h' = Blocked h'.
Proof.
  intros h.
  assert (Hi : idle h 1 (open_struct 10) (mkBuffer 2 [5%Z]))
    by (apply one_channel_idle; simpl; (reflexivity || lia)).
  split; [ exact Hi | ].
  exact (filled_channel_refuses h 1 _ _ [6%Z] 7%Z Hi eq_refl eq_refl).
Defined.

(** X14: closing an open channel that still buffers items and then
    receiving as many times as there are items, with no other thread at work,
    returns SUCCESS for the close and for every receive, with the items in
    the order they were buffered; the receive after that returns
    CLOSED_ERROR and leaves its slot alone, and the channel is closed and
    empty. *)
Theorem close_then_drain
    (h : heap) (p : ptr) (c : channel_t) (b : buffer_t) (data : void_ptr) :
  idle h p c b -> closed c = false ->
  exists h',
    close_and_drain p (length (buf_items b)) data h =
      Done (SUCCESS, map (fun x => (SUCCESS, x)) (buf_items b),
            (CLOSED_ERROR, data)) h' /\
    contents h' p = Some [] /\ closed_at h' p = Some true.
Proof.
  intros Hi Hopen.
  destruct (receive_times_run p (buf_items b) _ _ b [] data
              (close_struct_idle h p c b Hi))
    as (h' & c' & Hrun & Hi' & _ & Hcl & _); [ now rewrite app_nil_r | ].
  simpl in Hcl.
  exists h'. unfold close_and_drain. unfold bind at 1.
  rewrite (channel_close_open h p c b Hi Hopen).
  unfold bind at 1. rewrite Hrun. unfold bind at 1.
  rewrite (channel_receive_closed_empty [] h' p c' _ data Hi' Hcl eq_refl).
  split; [ reflexivity | ].
  split; [ now rewrite (contents_idle _ _ _ _ Hi') | ].
  unfold closed_at. destruct Hi' as [Hc' _ _ _ _ _]. rewrite Hc'. simpl.
  now rewrite Hcl.
Qed.

Lemma close_then_drain_witness :
  let h := one_channel (open_struct 10) [5%Z; 6%Z] in
  idle h 1 (open_struct 10) (mkBuffer 2 [5%Z; 6%Z]) /\
  exists h',
    close_and_drain 1 2 0%Z h =
      Done (SUCCESS, [(SUCCESS, 5%Z); (SUCCESS, 6%Z)], (CLOSED_ERROR, 0%Z)) h' /\
    contents h' 1 = Some [] /\ closed_at h' 1 = Some true.
Proof.
  intros h.
  assert (Hi : idle h 1 (open_struct 10) (mkBuffer 2 [5%Z; 6%Z]))
    by (apply one_channel_idle; simpl; (reflexivity || lia)).
  split; [ exact Hi | ].
  exact (close_then_drain h 1 _ _ 0%Z Hi eq_refl).
Defined.

(** ** Waking the sleepers *)

(** X15: a blocking send asleep on a full open channel, or a blocking
    receive asleep on an empty open channel, that is woken after another
    thread has closed the channel returns CLOSED_ERROR; the item is not
    enqueued, the slot is not written, and the heap is the one the close
    left. *)
Theorem close_wakes_sleepers
    (env : list interference) (h : heap) (p : ptr) (c : channel_t)
    (b : buffer_t) (data : void_ptr) :
  idle h p c b -> closed c = false ->
  (length (buf_items b) = buf_capacity b ->
   channel_send (other_thread (channel_close p) :: env) p data h =
   Done CLOSED_ERROR (put_channel p (close_struct c) h)) /\
  (buf_items b = [] ->
   channel_receive (other_thread (channel_close p) :: env) p data h =
   Done (CLOSED_ERROR, data) (put_channel p (close_struct c) h)).
Proof.
  intros Hi Hopen.
  assert (Hclose : other_thread (channel_close p) h = put_channel p (close_struct c) h)
    by (unfold other_thread; now rewrite (channel_close_open h p c b Hi Hopen)).
  pose proof (close_struct_idle h p c b Hi) as Hi'.
  split; intros Hstate.
  - rewrite (channel_send_woken _ env h p c b data Hi Hopen Hstate), Hclose.
    now apply (channel_send_closed_full env _ p (close_struct c) b).
  - rewrite (channel_receive_woken _ env h p c b data Hi Hopen Hstate), Hclose.
    now apply (channel_receive_closed_empty env _ p (close_struct c) b).
Qed.

Lemma close_wakes_sleepers_witness :
  let h := one_channel (open_struct 10) [] in
  idle h 1 (open_struct 10) (mkBuffer 2 []) /\
  channel_receive [other_thread (channel_close 1)] 1 9%Z h =
  Done (CLOSED_ERROR, 9%Z) (one_channel (shut_struct 10) []).
Proof.
  intros h.
  assert (Hi : idle h 1 (open_struct 10) (mkBuffer 2 []))
    by (apply one_channel_idle; simpl; (reflexivity || lia)).
  split; [ exact Hi | ].
  exact (proj2 (close_wakes_sleepers [] h 1 _ _ 9%Z Hi eq_refl) eq_refl).
Defined.

(** X16: a blocking send asleep on a full open channel that is woken after
    another thread has received an item goes through: it returns SUCCESS
    and its item is buffered behind the ones that were left.  A blocking
    receive asleep on an empty open channel that is woken after another
    thread has sent an item returns SUCCESS with that item, and the buffer
    is empty again. *)
Theorem complementary_call_wakes_sleeper
    (env : list interference) (h : heap) (p : ptr) (c : channel_t)
    (b : buffer_t) (data other : void_ptr) :
  idle h p c b -> closed c = false ->
  (forall x rest, buf_items b = x :: rest ->
   length (buf_items b) = buf_capacity b ->
   exists h',
     channel_send (other_thread (channel_receive [] p other) :: env) p data h =
       Done SUCCESS h' /\
     contents h' p = Some (rest ++ [data])) /\
  (buf_items b = [] -> 0 < buf_capacity b ->
   exists h',
     channel_receive (other_thread (channel_send [] p other) :: env) p data h =
       Done (SUCCESS, other) h' /\
     contents h' p = Some []).
Proof.
  intros Hi Hopen. split.
  - intros x rest Hitems Hfull.
    assert (Hrecv : other_thread (channel_receive [] p other) h = dequeued p c b rest h)
      by (unfold other_thread;
          now rewrite (channel_receive_item [] h p c b other x rest Hi Hitems)).
    pose proof (dequeued_idle h p c b x rest Hi Hitems) as Hi'.
    eexists. rewrite (channel_send_woken _ env h p c b data Hi Hopen Hfull), Hrecv.
    split.
    + apply (channel_send_room env _ p _ _ data Hi'). simpl.
      rewrite Hitems in Hfull. simpl in Hfull. lia.
    + apply (contents_put p _ _ (mkBuffer (buf_capacity b) (rest ++ [data]))).
      simpl. apply lookup_insert_eq.
  - intros Hempty Hcap.
    assert (Hroom : length (buf_items b) < buf_capacity b)
      by (rewrite Hempty; simpl; lia).
    assert (Hsend : other_thread (channel_send [] p other) h = enqueued p c b other h)
      by (unfold other_thread;
          now rewrite (channel_send_room [] h p c b other Hi Hroom)).
    pose proof (enqueued_idle h p c b other Hi Hroom) as Hi'.
    eexists. rewrite (channel_receive_woken _ env h p c b data Hi Hopen Hempty), Hsend.
    split.
    + apply (channel_receive_item env _ p _ _ data other [] Hi'). simpl.
      now rewrite Hempty.
    + apply (contents_put p _ _ (mkBuffer (buf_capacity b) [])).
      simpl. apply lookup_insert_eq.
Qed.

Lemma complementary_call_wakes_sleeper_witness :
  let h := one_channel (open_struct 10) [5%Z; 6%Z] in
  idle h 1 (open_struct 10) (mkBuffer 2 [5%Z; 6%Z]) /\
  exists h',
    channel_send [other_thread (channel_receive [] 1 0%Z)] 1 7%Z h =
      Done SUCCESS h' /\
    contents h' 1 = Some [6%Z; 7%Z].
Proof.
  intros h.
  assert (Hi : idle h 1 (open_struct 10) (mkBuffer 2 [5%Z; 6%Z]))
    by (apply one_channel_idle; simpl; (reflexivity || lia)).
  split; [ exact Hi | ].
  exact (proj1 (complementary_call_wakes_sleeper [] h 1 _ _ 7%Z 0%Z Hi eq_refl)
           5%Z [6%Z] eq_refl eq_refl).
Defined.
